(** * The shared informer factory of pkg/controller/shared

    A shallow embedding of [shared_informer.go]: the registry object
    [sharedInformerFactory], its two start entry points, its typed accessors
    and the override table.  Go's heap is made explicit: the methods are
    computations in a state monad over a [world] that holds the factory
    object behind the receiver pointer, the goroutines launched so far and
    the allocation counters that give objects their identity.

    Every method of the factory that touches the maps runs between
    [f.lock.Lock()] and the deferred [f.lock.Unlock()], so a method call is
    one atomic step and a concurrent execution is an interleaving of such
    steps: a list of operations. *)

From stdpp Require Import base option list gmap strings fin_maps.
From Stdlib Require Import ZArith Lia.

Set Default Proof Using "Type".

(** ** Collaborators owned by other packages

    They are interface values the factory only stores and hands back; what
    matters here is which object a value is. *)

Inductive kinternalinformers_SharedInformerFactory :=
  InternalKubeInformerBundle (id : nat).

Inductive kinformers_SharedInformerFactory :=
  KubeInformerBundle (id : nat).

Inductive kclientset_Interface :=
  KubeClient (id : nat).

Inductive oclient_Interface :=
  OriginClient (id : nat).

(** [time.Duration]: a count of nanoseconds. *)
Abbreviation Duration := Z (only parsing).

(** [<-chan struct{}]: the channel a stop signal arrives on. *)
Inductive stopChan :=
  StopChan (id : nat).

(** [reflect.Type], the key of the pool maps, as the name of the type. *)
Abbreviation reflectType := string (only parsing).

(** [schema.GroupResource] *)
Record GroupResource := mkGroupResource {
  Group : string;
  Resource : string
}.

#[global] Instance GroupResource_eq_dec : EqDecision GroupResource.
Proof. solve_decision. Defined.

#[global] Instance GroupResource_countable : Countable GroupResource.
Proof.
  refine (inj_countable' (λ gr, (Group gr, Resource gr))
                         (λ p, mkGroupResource p.1 p.2) _).
  by intros [].
Defined.

(** The client a default [cache.ListWatch] lists and watches through. *)
Inductive DefaultClient :=
| ThroughKubeClient (c : kclientset_Interface)
| ThroughOriginClient (c : oclient_Interface).

(** [cache.ListerWatcher], an interface value: [nil], a handle supplied by
    the caller, or the [&cache.ListWatch{...}] built over a default client. *)
Inductive ListerWatcher :=
| nilListerWatcher
| CustomListerWatcher (handle : nat)
| ClientListWatch (client : DefaultClient) (resource : GroupResource).

Definition isNil (lw : ListerWatcher) : bool :=
  match lw with
  | nilListerWatcher => true
  | _ => false
  end.

(** [cache.SharedIndexInformer]: the object [cache.NewSharedIndexInformer]
    returns.  [informer_id] is the identity of the object; the other fields
    are the arguments it was built from. *)
Record SharedIndexInformer := mkInformer {
  informer_id : nat;
  informer_lw : ListerWatcher;
  informer_objType : reflectType;
  informer_resync : Duration
}.

#[global] Instance kclientset_Interface_eq_dec : EqDecision kclientset_Interface.
Proof. solve_decision. Defined.
#[global] Instance oclient_Interface_eq_dec : EqDecision oclient_Interface.
Proof. solve_decision. Defined.
#[global] Instance DefaultClient_eq_dec : EqDecision DefaultClient.
Proof. solve_decision. Defined.
#[global] Instance ListerWatcher_eq_dec : EqDecision ListerWatcher.
Proof. solve_decision. Defined.
#[global] Instance SharedIndexInformer_eq_dec : EqDecision SharedIndexInformer.
Proof. solve_decision. Defined.
#[global] Instance stopChan_eq_dec : EqDecision stopChan.
Proof. solve_decision. Defined.

(** ** The override table *)

(** [ListerWatcherOverrides]: "GetListerWatcher returns back a ListerWatcher
    for a given resource or nil if no particular ListerWatcher was specified
    for the type". *)
Class ListerWatcherOverrides (O : Type) :=
  GetListerWatcher : O → GroupResource → ListerWatcher.

(** [type DefaultListerWatcherOverrides map[schema.GroupResource]cache.ListerWatcher] *)
Abbreviation DefaultListerWatcherOverrides :=
  (gmap GroupResource ListerWatcher) (only parsing).

(** [return o[resource]]: indexing a Go map gives the zero value of the
    element type, the nil interface, at a key that has no entry. *)
#[global] Instance DefaultListerWatcherOverrides_GetListerWatcher :
  ListerWatcherOverrides DefaultListerWatcherOverrides :=
  λ o resource, default nilListerWatcher (o !! resource).

(** ** The factory object *)

Record sharedInformerFactory (O : Type) := mkFactory {
  internalKubeInformers : kinternalinformers_SharedInformerFactory;
  kubeInformers : kinformers_SharedInformerFactory;
  kubeClient : kclientset_Interface;
  originClient : oclient_Interface;
  customListerWatchers : O;
  defaultResync : Duration;

  informers : gmap reflectType SharedIndexInformer;
  coreInformers : gmap reflectType SharedIndexInformer;
  startedInformers : gmap reflectType bool;
  startedCoreInformers : gmap reflectType bool
}.

Arguments mkFactory {O}.
Arguments internalKubeInformers {O}.
Arguments kubeInformers {O}.
Arguments kubeClient {O}.
Arguments originClient {O}.
Arguments customListerWatchers {O}.
Arguments defaultResync {O}.
Arguments informers {O}.
Arguments coreInformers {O}.
Arguments startedInformers {O}.
Arguments startedCoreInformers {O}.

Definition NewInformerFactory {O : Type}
    (internalKubeInformers : kinternalinformers_SharedInformerFactory)
    (kubeInformers : kinformers_SharedInformerFactory)
    (kubeClient : kclientset_Interface)
    (originClient : oclient_Interface)
    (customListerWatchers : O)
    (defaultResync : Duration) : sharedInformerFactory O :=
  {| internalKubeInformers := internalKubeInformers;
     kubeInformers := kubeInformers;
     kubeClient := kubeClient;
     originClient := originClient;
     customListerWatchers := customListerWatchers;
     defaultResync := defaultResync;

     informers := ∅;
     coreInformers := ∅;
     startedInformers := ∅;
     startedCoreInformers := ∅ |}.

(** ** The heap and the monad of method bodies *)

(** [go informer.Run(stopCh)]: a goroutine is recorded when it is launched;
    the launching method never waits for it. *)
Record Goroutine := mkGoroutine {
  go_informer : SharedIndexInformer;
  go_stopCh : stopChan
}.

#[global] Instance Goroutine_eq_dec : EqDecision Goroutine.
Proof. solve_decision. Defined.

Inductive Pool := General | Core.

#[global] Instance Pool_eq_dec : EqDecision Pool.
Proof. solve_decision. Defined.

Record world (O : Type) := mkWorld {
  (** the object behind the receiver pointer [f] *)
  factory : sharedInformerFactory O;
  (** goroutines launched so far, the latest first *)
  goroutines : list Goroutine;
  (** informers built so far, the latest first, each with the pool and key
      it was built for *)
  constructed : list (Pool * reflectType * SharedIndexInformer);
  (** number of facade objects allocated so far *)
  facades : nat
}.

Arguments mkWorld {O}.
Arguments factory {O}.
Arguments goroutines {O}.
Arguments constructed {O}.
Arguments facades {O}.

Definition Go (O A : Type) : Type := world O → A * world O.

#[global] Instance Go_ret {O} : MRet (Go O) := λ A a w, (a, w).
#[global] Instance Go_bind {O} : MBind (Go O) :=
  λ A B k c w, let '(a, w') := c w in k a w'.

Definition exec {O A} (c : Go O A) (w : world O) : world O := (c w).2.
Definition eval {O A} (c : Go O A) (w : world O) : A := (c w).1.

(** [*f] *)
Definition deref {O} : Go O (sharedInformerFactory O) :=
  λ w, (factory w, w).

Definition assign {O} (f : sharedInformerFactory O) : Go O unit :=
  λ w, (tt, mkWorld f (goroutines w) (constructed w) (facades w)).

(** [go g] *)
Definition spawn {O} (g : Goroutine) : Go O unit :=
  λ w, (tt, mkWorld (factory w) (g :: goroutines w) (constructed w) (facades w)).

(** [m[k]] on a [map[reflect.Type]bool]: false where there is no entry. *)
Definition flag (m : gmap reflectType bool) (k : reflectType) : bool :=
  default false (m !! k).

(** Assignments to the four map fields of [*f]. *)
Definition set_informers {O} (m : gmap reflectType SharedIndexInformer)
    (f : sharedInformerFactory O) : sharedInformerFactory O :=
  mkFactory (internalKubeInformers f) (kubeInformers f) (kubeClient f)
            (originClient f) (customListerWatchers f) (defaultResync f)
            m (coreInformers f) (startedInformers f) (startedCoreInformers f).

Definition set_coreInformers {O} (m : gmap reflectType SharedIndexInformer)
    (f : sharedInformerFactory O) : sharedInformerFactory O :=
  mkFactory (internalKubeInformers f) (kubeInformers f) (kubeClient f)
            (originClient f) (customListerWatchers f) (defaultResync f)
            (informers f) m (startedInformers f) (startedCoreInformers f).

Definition set_startedInformers {O} (m : gmap reflectType bool)
    (f : sharedInformerFactory O) : sharedInformerFactory O :=
  mkFactory (internalKubeInformers f) (kubeInformers f) (kubeClient f)
            (originClient f) (customListerWatchers f) (defaultResync f)
            (informers f) (coreInformers f) m (startedCoreInformers f).

Definition set_startedCoreInformers {O} (m : gmap reflectType bool)
    (f : sharedInformerFactory O) : sharedInformerFactory O :=
  mkFactory (internalKubeInformers f) (kubeInformers f) (kubeClient f)
            (originClient f) (customListerWatchers f) (defaultResync f)
            (informers f) (coreInformers f) (startedInformers f) m.

(** [f.startedInformers[k] = b] *)
Definition store_startedInformers {O} (k : reflectType) (b : bool) : Go O unit :=
  f ← deref;
  assign (set_startedInformers (<[k := b]> (startedInformers f)) f).

(** [f.startedCoreInformers[k] = b] *)
Definition store_startedCoreInformers {O} (k : reflectType) (b : bool) : Go O unit :=
  f ← deref;
  assign (set_startedCoreInformers (<[k := b]> (startedCoreInformers f)) f).

(** [for k, v := range entries { body }] over the entries in the order given. *)
Fixpoint forEach {O K V} (entries : list (K * V)) (body : K → V → Go O unit)
    : Go O unit :=
  match entries with
  | [] => mret tt
  | (k, v) :: rest => body k v ;; forEach rest body
  end.

(** [for k, v := range m { body }].  Go leaves the order of a map range
    unspecified; [map_to_list] fixes one, and [start_any_order] below shows
    that the outcome is the same for every other. *)
Definition range {O V} (m : gmap reflectType V) (body : reflectType → V → Go O unit)
    : Go O unit :=
  forEach (map_to_list m) body.

(** ** Start and StartCore *)

Definition Start_body {O} (stopCh : stopChan)
    (informerType : reflectType) (informer : SharedIndexInformer) : Go O unit :=
  f ← deref;
  if negb (flag (startedInformers f) informerType) then
    spawn (mkGoroutine informer stopCh) ;;
    store_startedInformers informerType true
  else mret tt.

Definition Start {O} (stopCh : stopChan) : Go O unit :=
  f ← deref;
  range (informers f) (Start_body stopCh).

Definition StartCore_body {O} (stopCh : stopChan)
    (informerType : reflectType) (informer : SharedIndexInformer) : Go O unit :=
  f ← deref;
  if negb (flag (startedCoreInformers f) informerType) then
    spawn (mkGoroutine informer stopCh) ;;
    store_startedCoreInformers informerType true
  else mret tt.

Definition StartCore {O} (stopCh : stopChan) : Go O unit :=
  f ← deref;
  range (coreInformers f) (StartCore_body stopCh).

(** ** The typed accessors

    [&clusterPolicyInformer{sharedInformerFactory: f}] and its nine siblings:
    a new object on every call, whose struct type names the kind and whose
    one field is the receiver pointer.  The world holds a single factory, so
    the pointer is not stored: a facade's methods run on [factory w]. *)

Inductive facadeType :=
| clusterPolicyInformer
| clusterPolicyBindingInformer
| policyInformer
| policyBindingInformer
| deploymentConfigInformer
| buildConfigInformer
| buildInformer
| imageStreamInformer
| securityContextConstraintsInformer
| clusterResourceQuotaInformer.

#[global] Instance facadeType_eq_dec : EqDecision facadeType.
Proof. solve_decision. Defined.

Record facade := mkFacade {
  (** identity of the facade object *)
  facade_addr : nat;
  facade_type : facadeType
}.

(** [&T{sharedInformerFactory: f}] *)
Definition new_facade {O} (T : facadeType) : Go O facade :=
  λ w, (mkFacade (facades w) T,
        mkWorld (factory w) (goroutines w) (constructed w) (S (facades w))).

Definition ClusterPolicies {O} : Go O facade :=
  new_facade clusterPolicyInformer.
Definition ClusterPolicyBindings {O} : Go O facade :=
  new_facade clusterPolicyBindingInformer.
Definition Policies {O} : Go O facade :=
  new_facade policyInformer.
Definition PolicyBindings {O} : Go O facade :=
  new_facade policyBindingInformer.
Definition DeploymentConfigs {O} : Go O facade :=
  new_facade deploymentConfigInformer.
Definition BuildConfigs {O} : Go O facade :=
  new_facade buildConfigInformer.
Definition Builds {O} : Go O facade :=
  new_facade buildInformer.
Definition ImageStreams {O} : Go O facade :=
  new_facade imageStreamInformer.
Definition SecurityContextConstraints {O} : Go O facade :=
  new_facade securityContextConstraintsInformer.
Definition ClusterResourceQuotas {O} : Go O facade :=
  new_facade clusterResourceQuotaInformer.

(** The accessor of a kind. *)
Definition accessor {O} (T : facadeType) : Go O facade :=
  match T with
  | clusterPolicyInformer => ClusterPolicies
  | clusterPolicyBindingInformer => ClusterPolicyBindings
  | policyInformer => Policies
  | policyBindingInformer => PolicyBindings
  | deploymentConfigInformer => DeploymentConfigs
  | buildConfigInformer => BuildConfigs
  | buildInformer => Builds
  | imageStreamInformer => ImageStreams
  | securityContextConstraintsInformer => SecurityContextConstraints
  | clusterResourceQuotaInformer => ClusterResourceQuotas
  end.

Definition KubernetesInformers {O} : Go O kinformers_SharedInformerFactory :=
  f ← deref; mret (kubeInformers f).

Definition InternalKubernetesInformers {O}
    : Go O kinternalinformers_SharedInformerFactory :=
  f ← deref; mret (internalKubeInformers f).

(** ** Resolving a facade to its informer *)

(** The pool maps and started-flag maps, by pool. *)
Definition pool {O} (P : Pool) (f : sharedInformerFactory O)
    : gmap reflectType SharedIndexInformer :=
  match P with
  | General => informers f
  | Core => coreInformers f
  end.

Definition started {O} (P : Pool) (f : sharedInformerFactory O)
    : gmap reflectType bool :=
  match P with
  | General => startedInformers f
  | Core => startedCoreInformers f
  end.

(** [f.informers[k] = informer], or the same on [f.coreInformers]. *)
Definition store_pool {O} (P : Pool) (k : reflectType)
    (informer : SharedIndexInformer) : Go O unit :=
  f ← deref;
  match P with
  | General => assign (set_informers (<[k := informer]> (informers f)) f)
  | Core => assign (set_coreInformers (<[k := informer]> (coreInformers f)) f)
  end.

(** Assignment to the started-flag map of a pool. *)
Definition set_started {O} (P : Pool) (m : gmap reflectType bool)
    (f : sharedInformerFactory O) : sharedInformerFactory O :=
  match P with
  | General => set_startedInformers m f
  | Core => set_startedCoreInformers m f
  end.

(** One pass of the loop of [Start] and [StartCore] over the entries of a
    pool, on the flags of the pool and the list of goroutines alone. *)
Definition start_entry (stopCh : stopChan)
    (acc : gmap reflectType bool * list Goroutine)
    (entry : reflectType * SharedIndexInformer)
    : gmap reflectType bool * list Goroutine :=
  if flag acc.1 entry.1 then acc
  else (<[entry.1 := true]> acc.1, mkGoroutine entry.2 stopCh :: acc.2).

Definition start_entries (stopCh : stopChan)
    (entries : list (reflectType * SharedIndexInformer))
    (flags : gmap reflectType bool) (gs : list Goroutine)
    : gmap reflectType bool * list Goroutine :=
  foldl (start_entry stopCh) (flags, gs) entries.

(** The entries of a pool whose flag is not set, as the goroutines a start
    call launches for them. *)
Definition pending (stopCh : stopChan) (flags : gmap reflectType bool)
    (entries : list (reflectType * SharedIndexInformer)) : list Goroutine :=
  (λ e, mkGoroutine e.2 stopCh) <$> filter (λ e, flag flags e.1 = false) entries.

(** [Start] or [StartCore], by pool. *)
Definition start {O} (P : Pool) (stopCh : stopChan) : Go O unit :=
  match P with
  | General => Start stopCh
  | Core => StartCore stopCh
  end.

(** Modelled from the spec: the per-kind constants of the facade files, which
    are not in this file of the package: the pool a kind's facade registers
    in ("each kind is registered in exactly one pool by convention of which
    facade method is used"), the map key of the kind ("derivable
    deterministically from a kind descriptor"), the resource the override
    table is asked for, and which of the two clients is the kind's default. *)
Class FacadeTable := mkFacadeTable {
  poolOf : facadeType → Pool;
  informerTypeOf : facadeType → reflectType;
  resourceOf : facadeType → GroupResource;
  throughKubeClient : facadeType → bool
}.

(** Modelled from the spec: the PipelineSource, "given a resource kind and a
    resync interval, produces a runnable watch/cache pipeline object", and may
    fail with a ConstructionError.  It is external, so what it answers to one
    call is an input of that call. *)
Inductive ConstructionError :=
  ConstructionFailed (reason : string).

Inductive PipelineSource :=
| SourceBuilds
| SourceFails (e : ConstructionError).

Inductive Resolution :=
| Resolved (informer : SharedIndexInformer)
| Failed (e : ConstructionError).

(** Modelled from the spec: the data source of a new pipeline, "if
    OverrideTable contains an entry for kind K, the pipeline constructed for K
    is built from the override handle, not from the default client; for any
    kind not in OverrideTable, the default client is used".  The table is
    reached through [GetListerWatcher], the one method of the interface the
    factory holds, which answers nil for "no ListerWatcher specified". *)
Definition defaultListWatch {O} {tbl : FacadeTable}
    (f : sharedInformerFactory O) (K : facadeType) : ListerWatcher :=
  ClientListWatch
    (if throughKubeClient K then ThroughKubeClient (kubeClient f)
     else ThroughOriginClient (originClient f))
    (resourceOf K).

Definition listerWatcherFor {O} `{!ListerWatcherOverrides O} {tbl : FacadeTable}
    (f : sharedInformerFactory O) (K : facadeType) : ListerWatcher :=
  let lw := GetListerWatcher (customListerWatchers f) (resourceOf K) in
  if isNil lw then defaultListWatch f K else lw.

(** Modelled from the spec: the PipelineSource building a pipeline: a new
    object, whose identity no earlier one has, recorded with the pool and key
    it is built for. *)
Definition build {O} (P : Pool) (informerType : reflectType)
    (lw : ListerWatcher) (resync : Duration) : Go O SharedIndexInformer :=
  λ w, let informer := mkInformer (length (constructed w)) lw informerType resync in
       (informer,
        mkWorld (factory w) (goroutines w)
                ((P, informerType, informer) :: constructed w) (facades w)).

(** Modelled from the spec: "[getOrCreate(pool, kind) -> Pipeline]: returns
    the existing pipeline for [kind] in [pool] if present; otherwise
    constructs one via PipelineSource (after consulting OverrideTable for
    [kind]), stores it, and returns it", and "construction failure from
    PipelineSource is fatal to the calling request (surfaced, not swallowed) —
    the kind is not cached as failed".  The whole body runs under the lock. *)
Definition getOrCreate {O} `{!ListerWatcherOverrides O} {tbl : FacadeTable}
    (P : Pool) (K : facadeType) (source : PipelineSource) : Go O Resolution :=
  f ← deref;
  let informerType := informerTypeOf K in
  match pool P f !! informerType with
  | Some informer => mret (Resolved informer)
  | None =>
      let lw := listerWatcherFor f K in
      match source with
      | SourceFails e => mret (Failed e)
      | SourceBuilds =>
          informer ← build P informerType lw (defaultResync f);
          store_pool P informerType informer ;;
          mret (Resolved informer)
      end
  end.

(** Modelled from the spec: a facade "on every call, resolves through
    [getOrCreate] using its own fixed kind identity and the shared
    registry/pool reference; it holds no independent state". *)
Definition Informer {O} `{!ListerWatcherOverrides O} {tbl : FacadeTable}
    (fa : facade) (source : PipelineSource) : Go O Resolution :=
  getOrCreate (poolOf (facade_type fa)) (facade_type fa) source.

(** ** Executions *)

(** One call on the registry.  A call that may reach the PipelineSource
    carries what the source answers if it is asked. *)
Inductive Op :=
| CallStart (stopCh : stopChan)
| CallStartCore (stopCh : stopChan)
| CallAccessor (T : facadeType)
| CallKubernetesInformers
| CallInternalKubernetesInformers
| CallInformer (fa : facade) (source : PipelineSource)
| CallGetOrCreate (P : Pool) (K : facadeType) (source : PipelineSource).

Definition step {O} `{!ListerWatcherOverrides O} {tbl : FacadeTable} (op : Op) : Go O unit :=
  match op with
  | CallStart stopCh => Start stopCh
  | CallStartCore stopCh => StartCore stopCh
  | CallAccessor T => accessor T ;; mret tt
  | CallKubernetesInformers => KubernetesInformers ;; mret tt
  | CallInternalKubernetesInformers => InternalKubernetesInformers ;; mret tt
  | CallInformer fa source => Informer fa source ;; mret tt
  | CallGetOrCreate P K source => getOrCreate P K source ;; mret tt
  end.

Fixpoint run {O} `{!ListerWatcherOverrides O} {tbl : FacadeTable} (ops : list Op) : Go O unit :=
  match ops with
  | [] => mret tt
  | op :: rest => step op ;; run rest
  end.

(** The world right after [NewInformerFactory] returned [&f]. *)
Definition boot {O} (f : sharedInformerFactory O) : world O :=
  mkWorld f [] [] 0.

(** ** Observations *)

(** How many times [informer.Run] has been launched. *)
Definition launches {O} (informer : SharedIndexInformer) (w : world O) : nat :=
  length (filter (λ g, go_informer g = informer) (goroutines w)).

(** How many informers have been built for a key of a pool. *)
Definition constructions {O} (P : Pool) (t : reflectType) (w : world O) : nat :=
  length (filter (λ e, e.1 = (P, t)) (constructed w)).

(** The goroutines a computation launches from [w], the latest first. *)
Definition launched_by {O A} (c : Go O A) (w : world O) : list Goroutine :=
  take (length (goroutines (exec c w)) - length (goroutines w))
       (goroutines (exec c w)).

(** The call that starts a pool. *)
Definition CallStartOf (P : Pool) (stopCh : stopChan) : Op :=
  match P with
  | General => CallStart stopCh
  | Core => CallStartCore stopCh
  end.

(** Assignment to the informer map of a pool. *)
Definition set_pool {O} (P : Pool) (m : gmap reflectType SharedIndexInformer)
    (f : sharedInformerFactory O) : sharedInformerFactory O :=
  match P with
  | General => set_informers m f
  | Core => set_coreInformers m f
  end.

(** The world with both maps of pool [P] replaced. *)
Definition overwrite_pool {O} (P : Pool)
    (m : gmap reflectType SharedIndexInformer) (s : gmap reflectType bool)
    (w : world O) : world O :=
  mkWorld (set_started P s (set_pool P m (factory w)))
          (goroutines w) (constructed w) (facades w).

(** The three ways one call changes the world: a pool is started, a facade
    object is allocated (or nothing happens), an informer is built for a key
    that has none. *)
Inductive transition {O} `{!ListerWatcherOverrides O} {tbl : FacadeTable}
    (w : world O) : world O → Prop :=
| transition_start P stopCh :
    transition w (exec (start P stopCh) w)
| transition_alloc n :
    facades w ≤ n →
    transition w (mkWorld (factory w) (goroutines w) (constructed w) n)
| transition_build P K :
    pool P (factory w) !! informerTypeOf K = None →
    transition w (exec (getOrCreate P K SourceBuilds) w).

(** What holds of every world an execution reaches from a new factory. *)
Record consistent {O} (w : world O) : Prop := mkConsistent {
  (** the identity of a built informer is its rank in the order of building *)
  built_ids : ∀ i e,
    constructed w !! i = Some e → informer_id e.2 + S i = length (constructed w);
  (** an informer that was built is stored under the pool and key it was
      built for *)
  built_stored : ∀ P t informer,
    (P, t, informer) ∈ constructed w → pool P (factory w) !! t = Some informer;
  (** and nothing else is stored *)
  stored_built : ∀ P t informer,
    pool P (factory w) !! t = Some informer → (P, t, informer) ∈ constructed w;
  (** only stored informers run *)
  launched_stored : ∀ g,
    g ∈ goroutines w → ∃ P t, pool P (factory w) !! t = Some (go_informer g);
  (** a flag is set only at a key that has an informer *)
  flag_stored : ∀ P t,
    flag (started P (factory w)) t = true → is_Some (pool P (factory w) !! t);
  (** an informer has been launched once if its flag is set, never otherwise *)
  launches_flag : ∀ P t informer,
    pool P (factory w) !! t = Some informer →
    launches informer w = if flag (started P (factory w)) t then 1 else 0
}.

(** ** A concrete table and factory for the examples *)

Definition example_table : FacadeTable :=
  {| poolOf T :=
       match T with
       | clusterPolicyInformer | clusterPolicyBindingInformer
       | policyInformer | policyBindingInformer => Core
       | _ => General
       end;
     informerTypeOf T :=
       match T with
       | clusterPolicyInformer => "*api.ClusterPolicy"
       | clusterPolicyBindingInformer => "*api.ClusterPolicyBinding"
       | policyInformer => "*api.Policy"
       | policyBindingInformer => "*api.PolicyBinding"
       | deploymentConfigInformer => "*api.DeploymentConfig"
       | buildConfigInformer => "*api.BuildConfig"
       | buildInformer => "*api.Build"
       | imageStreamInformer => "*api.ImageStream"
       | securityContextConstraintsInformer => "*api.SecurityContextConstraints"
       | clusterResourceQuotaInformer => "*api.ClusterResourceQuota"
       end;
     resourceOf T :=
       match T with
       | clusterPolicyInformer => mkGroupResource "" "clusterpolicies"
       | clusterPolicyBindingInformer => mkGroupResource "" "clusterpolicybindings"
       | policyInformer => mkGroupResource "" "policies"
       | policyBindingInformer => mkGroupResource "" "policybindings"
       | deploymentConfigInformer => mkGroupResource "" "deploymentconfigs"
       | buildConfigInformer => mkGroupResource "" "buildconfigs"
       | buildInformer => mkGroupResource "" "builds"
       | imageStreamInformer => mkGroupResource "" "imagestreams"
       | securityContextConstraintsInformer =>
           mkGroupResource "" "securitycontextconstraints"
       | clusterResourceQuotaInformer => mkGroupResource "" "clusterresourcequotas"
       end;
     throughKubeClient T :=
       match T with
       | securityContextConstraintsInformer => true
       | _ => false
       end |}.

Definition example_overrides : DefaultListerWatcherOverrides :=
  {[ mkGroupResource "" "builds" := CustomListerWatcher 7 ]}.

Abbreviation example_factory :=
  (NewInformerFactory (InternalKubeInformerBundle 1) (KubeInformerBundle 2)
                      (KubeClient 3) (OriginClient 4) example_overrides 30000000000).

Definition example_ops : list Op :=
  [ CallGetOrCreate General buildInformer SourceBuilds;
    CallGetOrCreate General imageStreamInformer (SourceFails (ConstructionFailed "refused"));
    CallGetOrCreate Core policyInformer SourceBuilds;
    CallStartCore (StopChan 0);
    CallStart (StopChan 0);
    CallGetOrCreate General imageStreamInformer SourceBuilds;
    CallStart (StopChan 0) ].


(** * Proofs *)

(** ** The loop of Start and StartCore *)

Section start_loop.
Context {O : Type}.
Implicit Types (w : world O) (f : sharedInformerFactory O).
Implicit Types (flags : gmap string bool) (gs : list Goroutine).
Implicit Types (entries : list (string * SharedIndexInformer)).

Lemma flag_true flags k : flag flags k = true ↔ flags !! k = Some true.
Proof.
  unfold flag. destruct (flags !! k) as [[]|]; simpl; split; congruence.
Qed.

Lemma flag_insert flags k k' b :
  flag (<[k := b]> flags) k' = if decide (k = k') then b else flag flags k'.
Proof. unfold flag. rewrite lookup_insert. by case_decide. Qed.

Lemma start_entries_cons stopCh e entries flags gs :
  start_entries stopCh (e :: entries) flags gs =
  start_entries stopCh entries (start_entry stopCh (flags, gs) e).1
                               (start_entry stopCh (flags, gs) e).2.
Proof. unfold start_entries. simpl. by destruct (start_entry _ _ _). Qed.

Lemma start_entries_flags stopCh entries flags gs k :
  (start_entries stopCh entries flags gs).1 !! k =
  if decide (k ∈ entries.*1) then Some true else flags !! k.
Proof.
  revert flags gs. induction entries as [|[k0 i0] entries IH]; intros flags gs.
  - done.
  - rewrite start_entries_cons, IH. clear IH.
    rewrite fmap_cons. unfold start_entry. cbn [fst snd].
    destruct (decide (k ∈ entries.*1)) as [Hin|Hin].
    { rewrite decide_True; [done | by right]. }
    destruct (decide (k = k0)) as [->|Hne].
    + rewrite decide_True by left.
      destruct (flag flags k0) eqn:Hk0; cbn [fst].
      * by apply flag_true in Hk0.
      * by rewrite lookup_insert_eq.
    + rewrite decide_False by (by intros [?|?]%elem_of_cons).
      destruct (flag flags k0); cbn [fst]; [done|].
      by rewrite lookup_insert_ne.
Qed.

Lemma pending_insert_fresh stopCh flags entries k b :
  k ∉ entries.*1 →
  pending stopCh (<[k := b]> flags) entries = pending stopCh flags entries.
Proof.
  unfold pending. intros Hk. f_equal.
  induction entries as [|[k0 i0] entries IH]; [done|].
  rewrite fmap_cons, not_elem_of_cons in Hk. destruct Hk as [Hne Hk].
  rewrite !filter_cons, IH by done. simpl.
  assert (flag (<[k:=b]> flags) k0 = flag flags k0) as Hfl
    by (by rewrite flag_insert, decide_False).
  repeat case_decide; congruence.
Qed.

Lemma pending_cons_set stopCh flags k i entries :
  flag flags k = true →
  pending stopCh flags ((k, i) :: entries) = pending stopCh flags entries.
Proof.
  intros Hf. unfold pending. rewrite filter_cons_False; [done|].
  cbn [fst]. congruence.
Qed.

Lemma pending_cons_unset stopCh flags k i entries :
  flag flags k = false →
  pending stopCh flags ((k, i) :: entries) =
  mkGoroutine i stopCh :: pending stopCh flags entries.
Proof. intros Hf. unfold pending. by rewrite filter_cons_True. Qed.

Lemma start_entries_goroutines stopCh entries flags gs :
  NoDup entries.*1 →
  (start_entries stopCh entries flags gs).2 =
  reverse (pending stopCh flags entries) ++ gs.
Proof.
  revert flags gs. induction entries as [|[k0 i0] entries IH]; intros flags gs Hnd.
  - done.
  - rewrite fmap_cons in Hnd. apply NoDup_cons in Hnd as [Hk0 Hnd].
    rewrite start_entries_cons, IH by done.
    unfold start_entry. cbn [fst snd].
    destruct (flag flags k0) eqn:Hf; cbn [fst snd].
    + by rewrite pending_cons_set.
    + rewrite pending_cons_unset, pending_insert_fresh by done.
      by rewrite reverse_cons, <- app_assoc.
Qed.

(** The monadic loops are the fold [start_entries] on the pool's flags. *)
Lemma set_startedInformers_id f : set_startedInformers (startedInformers f) f = f.
Proof. by destruct f. Qed.

Lemma set_startedCoreInformers_id f :
  set_startedCoreInformers (startedCoreInformers f) f = f.
Proof. by destruct f. Qed.

Lemma exec_forEach_cons {K V} (k : K) (v : V) rest (body : K → V → Go O unit) w :
  exec (forEach ((k, v) :: rest) body) w = exec (forEach rest body) (exec (body k v) w).
Proof.
  unfold exec. simpl. unfold mbind, Go_bind. by destruct (body k v w).
Qed.

Lemma Start_body_exec stopCh k i w :
  exec (Start_body stopCh k i) w =
  let r := start_entry stopCh (startedInformers (factory w), goroutines w) (k, i) in
  mkWorld (set_startedInformers r.1 (factory w)) r.2 (constructed w) (facades w).
Proof.
  unfold exec, Start_body, start_entry, mbind, Go_bind, deref. cbn.
  destruct (flag (startedInformers (factory w)) k); cbn.
  - rewrite set_startedInformers_id. by destruct w.
  - done.
Qed.

Lemma StartCore_body_exec stopCh k i w :
  exec (StartCore_body stopCh k i) w =
  let r := start_entry stopCh (startedCoreInformers (factory w), goroutines w) (k, i) in
  mkWorld (set_startedCoreInformers r.1 (factory w)) r.2 (constructed w) (facades w).
Proof.
  unfold exec, StartCore_body, start_entry, mbind, Go_bind, deref. cbn.
  destruct (flag (startedCoreInformers (factory w)) k); cbn.
  - rewrite set_startedCoreInformers_id. by destruct w.
  - done.
Qed.

Lemma forEach_Start_body stopCh entries w :
  exec (forEach entries (Start_body stopCh)) w =
  let r := start_entries stopCh entries (startedInformers (factory w)) (goroutines w) in
  mkWorld (set_startedInformers r.1 (factory w)) r.2 (constructed w) (facades w).
Proof.
  revert w. induction entries as [|[k0 i0] entries IH]; intros w.
  - cbn. rewrite set_startedInformers_id. by destruct w.
  - rewrite exec_forEach_cons, IH, Start_body_exec, start_entries_cons. done.
Qed.

Lemma forEach_StartCore_body stopCh entries w :
  exec (forEach entries (StartCore_body stopCh)) w =
  let r := start_entries stopCh entries (startedCoreInformers (factory w)) (goroutines w) in
  mkWorld (set_startedCoreInformers r.1 (factory w)) r.2 (constructed w) (facades w).
Proof.
  revert w. induction entries as [|[k0 i0] entries IH]; intros w.
  - cbn. rewrite set_startedCoreInformers_id. by destruct w.
  - rewrite exec_forEach_cons, IH, StartCore_body_exec, start_entries_cons. done.
Qed.

(** What a start call does, in closed form. *)
Lemma start_exec P stopCh w :
  exec (start P stopCh) w =
  let r := start_entries stopCh (map_to_list (pool P (factory w)))
                         (started P (factory w)) (goroutines w) in
  mkWorld (set_started P r.1 (factory w)) r.2 (constructed w) (facades w).
Proof.
  destruct P; simpl.
  - apply (forEach_Start_body stopCh (map_to_list (informers (factory w))) w).
  - apply (forEach_StartCore_body stopCh (map_to_list (coreInformers (factory w))) w).
Qed.
End start_loop.

(** ** What a start call reads and writes *)

Section start_call.
Context {O : Type}.
Implicit Types (w : world O) (f : sharedInformerFactory O).

Lemma pool_set_started P P' m f : pool P' (set_started P m f) = pool P' f.
Proof. by destruct P, P'. Qed.

Lemma started_set_started P m f : started P (set_started P m f) = m.
Proof. by destruct P. Qed.

Lemma started_set_started_ne P P' m f :
  P ≠ P' → started P' (set_started P m f) = started P' f.
Proof. by destruct P, P'. Qed.

Lemma map_to_list_keys {V} (m : gmap string V) k :
  k ∈ (map_to_list m).*1 ↔ is_Some (m !! k).
Proof.
  rewrite list_elem_of_fmap. split.
  - intros [[k' v] [-> Hin]]. apply elem_of_map_to_list in Hin. by exists v.
  - intros [v Hv]. exists (k, v). split; [done|]. by apply elem_of_map_to_list.
Qed.

Lemma start_pool P P' stopCh w :
  pool P' (factory (exec (start P stopCh) w)) = pool P' (factory w).
Proof. rewrite start_exec. cbn. apply pool_set_started. Qed.

Lemma start_started_other P P' stopCh w :
  P ≠ P' →
  started P' (factory (exec (start P stopCh) w)) = started P' (factory w).
Proof. intros. rewrite start_exec. cbn. by apply started_set_started_ne. Qed.

Lemma start_started P stopCh w k :
  started P (factory (exec (start P stopCh) w)) !! k =
  if decide (is_Some (pool P (factory w) !! k)) then Some true
  else started P (factory w) !! k.
Proof.
  rewrite start_exec. cbn. rewrite started_set_started, start_entries_flags.
  destruct (decide (k ∈ _)) as [Hin|Hin]; rewrite map_to_list_keys in Hin;
    by destruct (decide (is_Some _)).
Qed.

Lemma start_flag P stopCh w k :
  flag (started P (factory (exec (start P stopCh) w))) k =
  if decide (is_Some (pool P (factory w) !! k)) then true
  else flag (started P (factory w)) k.
Proof. unfold flag. rewrite start_started. by case_decide. Qed.

Lemma start_goroutines P stopCh w :
  goroutines (exec (start P stopCh) w) =
  reverse (pending stopCh (started P (factory w)) (map_to_list (pool P (factory w))))
  ++ goroutines w.
Proof.
  rewrite start_exec. cbn. apply start_entries_goroutines, NoDup_fst_map_to_list.
Qed.

Lemma start_constructed P stopCh w :
  constructed (exec (start P stopCh) w) = constructed w.
Proof. by rewrite start_exec. Qed.

Lemma start_facades P stopCh w : facades (exec (start P stopCh) w) = facades w.
Proof. by rewrite start_exec. Qed.

Lemma start_launched_by P stopCh w :
  launched_by (start P stopCh) w =
  reverse (pending stopCh (started P (factory w)) (map_to_list (pool P (factory w)))).
Proof.
  unfold launched_by. rewrite start_goroutines, length_app.
  replace (_ + _ - _) with
    (length (reverse (pending stopCh (started P (factory w))
                        (map_to_list (pool P (factory w)))))) by lia.
  by rewrite take_app_length.
Qed.

Lemma elem_of_pending stopCh flags (m : gmap string SharedIndexInformer) g :
  g ∈ pending stopCh flags (map_to_list m) ↔
  ∃ k, m !! k = Some (go_informer g) ∧ flag flags k = false ∧ go_stopCh g = stopCh.
Proof.
  unfold pending. rewrite list_elem_of_fmap. split.
  - intros [[k i] [-> [Hf Hin]%list_elem_of_filter]].
    apply elem_of_map_to_list in Hin. by exists k.
  - intros (k & Hk & Hf & Hch). exists (k, go_informer g). split.
    + destruct g. simpl in *. by subst.
    + apply list_elem_of_filter. split; [done|]. by apply elem_of_map_to_list.
Qed.

(** The order of the range does not matter. *)
Lemma start_any_order stopCh entries entries' flags gs :
  NoDup entries.*1 → entries ≡ₚ entries' →
  (start_entries stopCh entries' flags gs).1 = (start_entries stopCh entries flags gs).1 ∧
  ∃ new new',
    (start_entries stopCh entries flags gs).2 = new ++ gs ∧
    (start_entries stopCh entries' flags gs).2 = new' ++ gs ∧
    new ≡ₚ new'.
Proof.
  intros Hnd Hp. split.
  - apply map_eq. intros k. rewrite !start_entries_flags.
    destruct (decide (k ∈ entries'.*1)) as [Hin|Hin];
      destruct (decide (k ∈ entries.*1)) as [Hin'|Hin']; try done;
      exfalso; rewrite <- Hp in Hin; done.
  - eexists _, _. split; [by apply start_entries_goroutines|].
    split; [apply start_entries_goroutines; by rewrite <- Hp|].
    rewrite !reverse_Permutation. unfold pending. by rewrite Hp.
Qed.
End start_call.

(** ** Resolution and executions *)

Section executions.
Context {O : Type} `{!ListerWatcherOverrides O} {tbl : FacadeTable}.
Implicit Types (w : world O) (f : sharedInformerFactory O).

Lemma pool_set_pool P m f : pool P (set_pool P m f) = m.
Proof. by destruct P. Qed.

Lemma pool_set_pool_ne P P' m f : P ≠ P' → pool P' (set_pool P m f) = pool P' f.
Proof. by destruct P, P'. Qed.

Lemma started_set_pool P P' m f : started P' (set_pool P m f) = started P' f.
Proof. by destruct P, P'. Qed.

Lemma getOrCreate_hit P K source w informer :
  pool P (factory w) !! informerTypeOf K = Some informer →
  getOrCreate P K source w = (Resolved informer, w).
Proof.
  intros Hp. unfold getOrCreate, mbind, Go_bind, deref. cbn. by rewrite Hp.
Qed.

Lemma getOrCreate_fail P K e w :
  pool P (factory w) !! informerTypeOf K = None →
  getOrCreate P K (SourceFails e) w = (Failed e, w).
Proof.
  intros Hp. unfold getOrCreate, mbind, Go_bind, deref. cbn. by rewrite Hp.
Qed.

Lemma getOrCreate_build P K w :
  pool P (factory w) !! informerTypeOf K = None →
  let informer :=
    mkInformer (length (constructed w)) (listerWatcherFor (factory w) K)
               (informerTypeOf K) (defaultResync (factory w)) in
  getOrCreate P K SourceBuilds w =
  (Resolved informer,
   mkWorld (set_pool P (<[informerTypeOf K := informer]> (pool P (factory w))) (factory w))
           (goroutines w)
           ((P, informerTypeOf K, informer) :: constructed w)
           (facades w)).
Proof.
  intros Hp. unfold getOrCreate, mbind, Go_bind, deref. cbn. rewrite Hp.
  unfold build, store_pool, mbind, Go_bind, deref. by destruct P.
Qed.

(** Every call is one of the three transitions. *)
Lemma getOrCreate_transition P K source w :
  transition w (exec (getOrCreate P K source) w).
Proof.
  destruct (pool P (factory w) !! informerTypeOf K) as [informer|] eqn:Hp.
  - unfold exec. rewrite (getOrCreate_hit _ _ _ _ _ Hp). cbn.
    replace w with (mkWorld (factory w) (goroutines w) (constructed w) (facades w))
      at 2 by by destruct w.
    by apply transition_alloc.
  - destruct source as [|e].
    + by apply transition_build.
    + unfold exec. rewrite (getOrCreate_fail _ _ _ _ Hp). cbn.
      replace w with (mkWorld (factory w) (goroutines w) (constructed w) (facades w))
        at 2 by by destruct w.
      by apply transition_alloc.
Qed.

Lemma accessor_new_facade T : accessor (O := O) T = new_facade T.
Proof. by destruct T. Qed.

Lemma exec_bind_ret {A} (c : Go O A) w : exec (c ;; mret tt) w = exec c w.
Proof. unfold exec, mbind, Go_bind. by destruct (c w). Qed.

Lemma step_transition op w : transition w (exec (step op) w).
Proof.
  destruct op as [stopCh|stopCh|T| | |fa source|P K source]; cbn [step].
  - apply (transition_start w General).
  - apply (transition_start w Core).
  - rewrite exec_bind_ret, accessor_new_facade. unfold exec, new_facade. cbn.
    apply transition_alloc. lia.
  - rewrite exec_bind_ret. unfold exec. cbn.
    replace w with (mkWorld (factory w) (goroutines w) (constructed w) (facades w))
      at 2 by by destruct w.
    by apply transition_alloc.
  - rewrite exec_bind_ret. unfold exec. cbn.
    replace w with (mkWorld (factory w) (goroutines w) (constructed w) (facades w))
      at 2 by by destruct w.
    by apply transition_alloc.
  - rewrite exec_bind_ret. apply getOrCreate_transition.
  - rewrite exec_bind_ret. apply getOrCreate_transition.
Qed.

Lemma exec_run_cons op ops w :
  exec (run (op :: ops)) w = exec (run ops) (exec (step op) w).
Proof. unfold exec. cbn. unfold mbind, Go_bind. by destruct (step op w) as [[] ?]. Qed.

Lemma exec_run_app ops ops' w :
  exec (run (ops ++ ops')) w = exec (run ops') (exec (run ops) w).
Proof.
  revert w. induction ops as [|op ops IH]; intros w; [done|].
  by rewrite <- app_comm_cons, !exec_run_cons, IH.
Qed.

(** Induction over an execution. *)
Lemma run_invariant (I : world O → Prop) ops w :
  (∀ w1 w2, I w1 → transition w1 w2 → I w2) →
  I w → I (exec (run ops) w).
Proof.
  intros Hstep. revert w. induction ops as [|op ops IH]; intros w Hw; [done|].
  rewrite exec_run_cons. apply IH. eapply Hstep; [done|]. apply step_transition.
Qed.

(** *** What no call changes *)

Lemma transition_collaborators w w' :
  transition w w' →
  internalKubeInformers (factory w') = internalKubeInformers (factory w) ∧
  kubeInformers (factory w') = kubeInformers (factory w) ∧
  kubeClient (factory w') = kubeClient (factory w) ∧
  originClient (factory w') = originClient (factory w) ∧
  customListerWatchers (factory w') = customListerWatchers (factory w) ∧
  defaultResync (factory w') = defaultResync (factory w).
Proof.
  intros [P stopCh|n Hn|P K Hp].
  - rewrite start_exec. by destruct P.
  - done.
  - unfold exec. rewrite getOrCreate_build by done. by destruct P.
Qed.

Lemma run_collaborators ops w :
  internalKubeInformers (factory (exec (run ops) w)) = internalKubeInformers (factory w) ∧
  kubeInformers (factory (exec (run ops) w)) = kubeInformers (factory w) ∧
  kubeClient (factory (exec (run ops) w)) = kubeClient (factory w) ∧
  originClient (factory (exec (run ops) w)) = originClient (factory w) ∧
  customListerWatchers (factory (exec (run ops) w)) = customListerWatchers (factory w) ∧
  defaultResync (factory (exec (run ops) w)) = defaultResync (factory w).
Proof.
  apply (run_invariant (λ w',
    internalKubeInformers (factory w') = internalKubeInformers (factory w) ∧
    kubeInformers (factory w') = kubeInformers (factory w) ∧
    kubeClient (factory w') = kubeClient (factory w) ∧
    originClient (factory w') = originClient (factory w) ∧
    customListerWatchers (factory w') = customListerWatchers (factory w) ∧
    defaultResync (factory w') = defaultResync (factory w))); [|done].
  intros w1 w2 IH Ht. apply transition_collaborators in Ht.
  destruct IH as (<- & <- & <- & <- & <- & <-). done.
Qed.

(** *** What only grows *)

Lemma transition_pool w w' P t informer :
  transition w w' →
  pool P (factory w) !! t = Some informer →
  pool P (factory w') !! t = Some informer.
Proof.
  intros [P0 stopCh|n Hn|P0 K Hp] Hs.
  - by rewrite start_pool.
  - done.
  - unfold exec. rewrite getOrCreate_build by done. cbn.
    destruct (decide (P0 = P)) as [->|HP].
    + rewrite pool_set_pool. rewrite lookup_insert_ne; [done|]. congruence.
    + by rewrite pool_set_pool_ne.
Qed.

Lemma transition_flag w w' P t :
  transition w w' →
  flag (started P (factory w)) t = true →
  flag (started P (factory w')) t = true.
Proof.
  intros [P0 stopCh|n Hn|P0 K Hp] Hs.
  - destruct (decide (P0 = P)) as [->|HP].
    + rewrite start_flag. by case_decide.
    + by rewrite start_started_other.
  - done.
  - unfold exec. rewrite getOrCreate_build by done. cbn.
    by rewrite started_set_pool.
Qed.

Lemma transition_facades w w' : transition w w' → facades w ≤ facades w'.
Proof.
  intros [P0 stopCh|n Hn|P0 K Hp].
  - by rewrite start_facades.
  - done.
  - unfold exec. by rewrite getOrCreate_build.
Qed.

Lemma run_pool ops w P t informer :
  pool P (factory w) !! t = Some informer →
  pool P (factory (exec (run ops) w)) !! t = Some informer.
Proof.
  intros Hs. apply (run_invariant (λ w', pool P (factory w') !! t = Some informer));
    [|done].
  intros w1 w2 IH Ht. by eapply transition_pool.
Qed.

Lemma run_flag ops w P t :
  flag (started P (factory w)) t = true →
  flag (started P (factory (exec (run ops) w))) t = true.
Proof.
  intros Hs. apply (run_invariant (λ w', flag (started P (factory w')) t = true));
    [|done].
  intros w1 w2 IH Ht. by eapply transition_flag.
Qed.

Lemma run_facades ops w : facades w ≤ facades (exec (run ops) w).
Proof.
  apply (run_invariant (λ w', facades w ≤ facades w')); [|done].
  intros w1 w2 IH Ht. apply transition_facades in Ht. lia.
Qed.
End executions.

(** ** Consistency is kept by every call *)

Section counting.
Context {A : Type}.

Lemma length_filter_fmap {B} (f : A → B) (Q : B → Prop) `{∀ y, Decision (Q y)}
    (l : list A) :
  length (filter Q (f <$> l)) = length (filter (λ x, Q (f x)) l).
Proof.
  induction l as [|a l IH]; [done|].
  rewrite fmap_cons, !filter_cons. repeat case_decide; simpl; congruence.
Qed.

Lemma length_filter_none (Q : A → Prop) `{∀ x, Decision (Q x)} (l : list A) :
  (∀ y, y ∈ l → ¬ Q y) → length (filter Q l) = 0.
Proof.
  intros Hn. induction l as [|a l IH]; [done|].
  rewrite filter_cons_False by (apply Hn; left).
  apply IH. intros y Hy. apply Hn. by right.
Qed.

Lemma length_filter_unique (Q : A → Prop) `{∀ x, Decision (Q x)} (l : list A) x :
  NoDup l → x ∈ l → Q x → (∀ y, y ∈ l → Q y → y = x) →
  length (filter Q l) = 1.
Proof.
  induction l as [|a l IH]; intros Hnd Hx HQ Hu.
  - by apply elem_of_nil in Hx.
  - apply NoDup_cons in Hnd as [Ha Hnd].
    apply elem_of_cons in Hx as [->|Hx].
    + rewrite filter_cons_True by done. simpl. f_equal.
      apply length_filter_none. intros y Hy HQy.
      assert (y = a) as -> by (apply Hu; [by right | done]). done.
    + rewrite filter_cons_False.
      * apply IH; try done. intros y Hy. apply Hu. by right.
      * intros HQa. assert (a = x) as -> by (apply Hu; [left | done]). done.
Qed.
End counting.

Section consistency.
Context {O : Type} `{!ListerWatcherOverrides O} {tbl : FacadeTable}.
Implicit Types (w : world O) (f : sharedInformerFactory O).

Lemma consistent_boot f :
  informers f = ∅ → coreInformers f = ∅ →
  startedInformers f = ∅ → startedCoreInformers f = ∅ →
  consistent (boot f).
Proof.
  intros Hi Hc Hs Hsc. split; cbn.
  - intros i e Hl. by rewrite lookup_nil in Hl.
  - intros P t informer Hin. by apply elem_of_nil in Hin.
  - intros [] t informer; cbn; rewrite ?Hi, ?Hc, lookup_empty; done.
  - intros g Hin. by apply elem_of_nil in Hin.
  - intros [] t; unfold flag; cbn; rewrite ?Hs, ?Hsc, lookup_empty; done.
  - intros [] t informer; cbn; rewrite ?Hi, ?Hc, lookup_empty; done.
Qed.

(** An informer is stored under one key of one pool. *)
Lemma consistent_injective w P t P' t' informer :
  consistent w →
  pool P (factory w) !! t = Some informer →
  pool P' (factory w) !! t' = Some informer →
  P = P' ∧ t = t'.
Proof.
  intros Hc H1 H2.
  apply (stored_built w Hc), list_elem_of_lookup in H1 as [i Hi].
  apply (stored_built w Hc), list_elem_of_lookup in H2 as [j Hj].
  pose proof (built_ids w Hc _ _ Hi) as Hli.
  pose proof (built_ids w Hc _ _ Hj) as Hlj.
  cbn in *. assert (i = j) as -> by lia.
  rewrite Hi in Hj. by injection Hj as -> ->.
Qed.

Lemma consistent_NoDup w : consistent w → NoDup (constructed w).
Proof.
  intros Hc. apply NoDup_alt. intros i j e Hi Hj.
  pose proof (built_ids w Hc _ _ Hi). pose proof (built_ids w Hc _ _ Hj). lia.
Qed.

(** The launches of one informer by a start call. *)
Lemma start_launches P stopCh w informer :
  launches informer (exec (start P stopCh) w) =
  length (filter (λ e, e.2 = informer ∧ flag (started P (factory w)) e.1 = false)
                 (map_to_list (pool P (factory w))))
  + launches informer w.
Proof.
  unfold launches. rewrite start_goroutines, filter_app, length_app. f_equal.
  rewrite filter_reverse, length_reverse. unfold pending.
  rewrite length_filter_fmap. cbn. by rewrite list_filter_filter.
Qed.

Lemma start_launches_stored P stopCh w t informer :
  consistent w →
  pool P (factory w) !! t = Some informer →
  launches informer (exec (start P stopCh) w) = 1.
Proof.
  intros Hc Hs. rewrite start_launches, (launches_flag w Hc _ _ _ Hs).
  destruct (flag (started P (factory w)) t) eqn:Hf.
  - rewrite length_filter_none; [done|].
    intros [k i] Hin [Hi Hk]. cbn in *. subst i.
    apply elem_of_map_to_list in Hin.
    destruct (consistent_injective w P k P t informer) as [_ ->]; try done.
    congruence.
  - rewrite (length_filter_unique _ _ (t, informer)); [done|..].
    + apply NoDup_map_to_list.
    + by apply elem_of_map_to_list.
    + done.
    + intros [k i] Hin [Hi Hk]. cbn in *. subst i.
      apply elem_of_map_to_list in Hin.
      destruct (consistent_injective w P k P t informer) as [_ ->]; done.
Qed.

Lemma start_launches_other P P' stopCh w t informer :
  consistent w → P ≠ P' →
  pool P' (factory w) !! t = Some informer →
  launches informer (exec (start P stopCh) w) = launches informer w.
Proof.
  intros Hc HP Hs. rewrite start_launches, length_filter_none; [done|].
  intros [k i] Hin [Hi Hk]. cbn in *. subst i.
  apply elem_of_map_to_list in Hin.
  by destruct (consistent_injective w P k P' t informer) as [? _].
Qed.

Lemma consistent_start P stopCh w :
  consistent w → consistent (exec (start P stopCh) w).
Proof.
  intros Hc. split.
  - intros i e. rewrite start_constructed. apply (built_ids w Hc).
  - intros P' t informer. rewrite start_constructed, start_pool.
    apply (built_stored w Hc).
  - intros P' t informer. rewrite start_constructed, start_pool.
    apply (stored_built w Hc).
  - intros g. rewrite start_goroutines, elem_of_app, elem_of_reverse.
    intros [Hin|Hin].
    + apply elem_of_pending in Hin as (k & Hk & _). exists P, k.
      by rewrite start_pool.
    + destruct (launched_stored w Hc g Hin) as (P' & t & Hs). exists P', t.
      by rewrite start_pool.
  - intros P' t. rewrite start_pool. destruct (decide (P = P')) as [<-|HP].
    + rewrite start_flag. case_decide; [done|]. apply (flag_stored w Hc).
    + rewrite start_started_other by done. apply (flag_stored w Hc).
  - intros P' t informer. rewrite start_pool. intros Hs.
    destruct (decide (P = P')) as [<-|HP].
    + rewrite (start_launches_stored _ _ _ t) by done.
      rewrite start_flag, decide_True; [done|]. by exists informer.
    + rewrite (start_launches_other _ P' _ _ t) by done.
      rewrite start_started_other by done. by apply (launches_flag w Hc).
Qed.

Lemma consistent_alloc w n :
  consistent w →
  consistent (mkWorld (factory w) (goroutines w) (constructed w) n).
Proof. intros [? ? ? ? ? ?]. by split. Qed.

Lemma consistent_fresh_id w P t informer :
  consistent w →
  pool P (factory w) !! t = Some informer →
  informer_id informer < length (constructed w).
Proof.
  intros Hc Hs.
  apply (stored_built w Hc), list_elem_of_lookup in Hs as [i Hi].
  pose proof (built_ids w Hc _ _ Hi). cbn in *. lia.
Qed.

Lemma consistent_build P K w :
  consistent w →
  pool P (factory w) !! informerTypeOf K = None →
  consistent (exec (getOrCreate P K SourceBuilds) w).
Proof.
  intros Hc Hp. unfold exec. rewrite getOrCreate_build by done. cbn.
  set (informer := mkInformer _ _ _ _).
  assert (∀ P' t i, pool P' (factory w) !! t = Some i →
            pool P' (set_pool P (<[informerTypeOf K:=informer]> (pool P (factory w)))
                       (factory w)) !! t = Some i) as Hkeep.
  { intros P' t i Hs. destruct (decide (P = P')) as [<-|HP].
    - rewrite pool_set_pool, lookup_insert_ne; [done|]. congruence.
    - by rewrite pool_set_pool_ne. }
  assert (∀ P' t i,
            pool P' (set_pool P (<[informerTypeOf K:=informer]> (pool P (factory w)))
                       (factory w)) !! t = Some i →
            (P' = P ∧ t = informerTypeOf K ∧ i = informer) ∨
            pool P' (factory w) !! t = Some i) as Hcases.
  { intros P' t i. destruct (decide (P = P')) as [<-|HP].
    - rewrite pool_set_pool, lookup_insert. case_decide; [|by right].
      intros [= <-]. by left.
    - rewrite pool_set_pool_ne by done. by right. }
  split; cbn.
  - intros [|i] e; cbn.
    + intros [= <-]. cbn. lia.
    + intros Hi. pose proof (built_ids w Hc _ _ Hi). lia.
  - intros P' t i [[= -> -> ->]|Hin]%elem_of_cons.
    + by rewrite pool_set_pool, lookup_insert_eq.
    + by apply Hkeep, (built_stored w Hc).
  - intros P' t i [(-> & -> & ->)|Hs]%Hcases; [left|right].
    by apply (stored_built w Hc).
  - intros g Hin. destruct (launched_stored w Hc g Hin) as (P' & t & Hs).
    exists P', t. by apply Hkeep.
  - intros P' t. rewrite started_set_pool. intros Hf.
    destruct (flag_stored w Hc _ _ Hf) as [i Hi]. exists i. by apply Hkeep.
  - intros P' t i Hs. rewrite started_set_pool. unfold launches. cbn.
    apply Hcases in Hs as [(-> & -> & ->)|Hs].
    + destruct (flag (started P (factory w)) (informerTypeOf K)) eqn:Hf.
      { apply (flag_stored w Hc) in Hf as [? Hf]. congruence. }
      apply length_filter_none. intros g Hin Hg.
      destruct (launched_stored w Hc g Hin) as (P' & t & Hs).
      apply (consistent_fresh_id w) in Hs; [|done].
      rewrite Hg in Hs. cbn in Hs. lia.
    + by apply (launches_flag w Hc).
Qed.

Lemma consistent_transition w w' : consistent w → transition w w' → consistent w'.
Proof.
  intros Hc [P stopCh|n Hn|P K Hp].
  - by apply consistent_start.
  - by apply consistent_alloc.
  - by apply consistent_build.
Qed.

Lemma consistent_run ops w : consistent w → consistent (exec (run ops) w).
Proof. intros Hc. apply run_invariant; [apply consistent_transition | done]. Qed.

Lemma consistent_reachable ops a b c d (o : O) r :
  consistent (exec (run ops) (boot (NewInformerFactory a b c d o r))).
Proof. by apply consistent_run, consistent_boot. Qed.
End consistency.

(** ** Facades and resolution *)

Section facades.
Context {O : Type} `{!ListerWatcherOverrides O} {tbl : FacadeTable}.
Implicit Types (w : world O) (f : sharedInformerFactory O).

Lemma accessor_call K w :
  accessor K w =
  (mkFacade (facades w) K,
   mkWorld (factory w) (goroutines w) (constructed w) (S (facades w))).
Proof. by rewrite accessor_new_facade. Qed.

Lemma accessor_eval K w : eval (accessor K) w = mkFacade (facades w) K.
Proof. unfold eval. by rewrite accessor_call. Qed.

Lemma accessor_exec K w :
  exec (accessor K) w =
  mkWorld (factory w) (goroutines w) (constructed w) (S (facades w)).
Proof. unfold exec. by rewrite accessor_call. Qed.

Lemma exec_eq {A} (c : Go O A) w x w' : c w = (x, w') → exec c w = w'.
Proof. unfold exec. by intros ->. Qed.

Lemma call_result {A} (c : Go O A) w x : eval c w = x → c w = (x, exec c w).
Proof. unfold eval, exec. intros <-. by destruct (c w). Qed.

Lemma getOrCreate_resolved_stored P K source w informer w' :
  getOrCreate P K source w = (Resolved informer, w') →
  pool P (factory w') !! informerTypeOf K = Some informer.
Proof.
  destruct (pool P (factory w) !! informerTypeOf K) as [i|] eqn:Hp.
  - rewrite (getOrCreate_hit _ _ _ _ _ Hp). by intros [= <- <-].
  - destruct source as [|e].
    + rewrite getOrCreate_build by done. cbn. intros [= <- <-]. cbn.
      by rewrite pool_set_pool, lookup_insert_eq.
    + by rewrite getOrCreate_fail.
Qed.

Lemma getOrCreate_facades P K source w :
  facades (exec (getOrCreate P K source) w) = facades w.
Proof.
  unfold exec.
  destruct (pool P (factory w) !! informerTypeOf K) as [i|] eqn:Hp.
  - by rewrite (getOrCreate_hit _ _ _ _ _ Hp).
  - destruct source as [|e].
    + by rewrite getOrCreate_build.
    + by rewrite getOrCreate_fail.
Qed.

Lemma step_CallStartOf P stopCh w :
  exec (step (CallStartOf P stopCh)) w = exec (start P stopCh) w.
Proof. by destruct P. Qed.

(** At most one informer is ever built for a key of a pool. *)
Lemma constructions_at_most_one w P t :
  consistent w → constructions P t w ≤ 1.
Proof.
  intros Hc. unfold constructions.
  destruct (pool P (factory w) !! t) as [i|] eqn:Hp.
  - rewrite (length_filter_unique _ _ (P, t, i)); [done|..].
    + by apply consistent_NoDup.
    + by apply (stored_built w Hc).
    + done.
    + intros [[P' t'] i'] Hin [= -> ->].
      apply (built_stored w Hc) in Hin. congruence.
  - rewrite length_filter_none; [lia|].
    intros [[P' t'] i'] Hin [= -> ->].
    apply (built_stored w Hc) in Hin. congruence.
Qed.
End facades.

(** * The claims *)

(** C1. Singleton per kind.  In every world an execution reaches from a new
    factory, at most one informer has been built for any key of any pool.
    And once a facade of kind [K] has resolved to an informer, a facade of
    kind [K] obtained from a later accessor call, after any further calls on
    the registry, is another object (its address differs) and resolves to
    that same informer, whatever the PipelineSource would answer, without
    changing the world. *)
Theorem singleton_per_kind {O} `{!ListerWatcherOverrides O} {tbl : FacadeTable}
    a b c d (o : O) r (ops : list Op) (K : facadeType) :
  let w0 := exec (run ops) (boot (NewInformerFactory a b c d o r)) in
  (∀ P t, constructions P t w0 ≤ 1) ∧
  (∀ source informer w1,
     Informer (eval (accessor K) w0) source (exec (accessor K) w0)
       = (Resolved informer, w1) →
     ∀ ops' source',
       let w2 := exec (run ops') w1 in
       facade_addr (eval (accessor K) w2) ≠ facade_addr (eval (accessor K) w0) ∧
       Informer (eval (accessor K) w2) source' (exec (accessor K) w2)
         = (Resolved informer, exec (accessor K) w2)).
Proof.
  intros w0. split.
  - intros P t. apply constructions_at_most_one, consistent_reachable.
  - intros source informer w1 Hres ops' source' w2.
    rewrite !accessor_eval, !accessor_exec in *. unfold Informer in *. cbn in *.
    split.
    + pose proof (run_facades ops' w1) as Hle. fold w2 in Hle.
      pose proof (getOrCreate_facades (poolOf K) K source
        (mkWorld (factory w0) (goroutines w0) (constructed w0) (S (facades w0)))) as Hf.
      rewrite (exec_eq _ _ _ _ Hres) in Hf. cbn in Hf. lia.
    + apply getOrCreate_hit. cbn.
      apply getOrCreate_resolved_stored in Hres.
      by apply run_pool.
Qed.

Lemma singleton_per_kind_witness :
  let w0 := exec (run (tbl := example_table) []) (boot example_factory) in
  let informer := mkInformer 0 (CustomListerWatcher 7) "*api.Build" 30000000000 in
  let w1 := exec (Informer (tbl := example_table) (eval (accessor buildInformer) w0)
                           SourceBuilds)
                 (exec (accessor buildInformer) w0) in
  Informer (tbl := example_table) (eval (accessor buildInformer) w0) SourceBuilds
           (exec (accessor buildInformer) w0)
    = (Resolved informer, w1) ∧
  let w2 := exec (run (tbl := example_table) example_ops) w1 in
  facade_addr (eval (accessor buildInformer) w2)
    ≠ facade_addr (eval (accessor buildInformer) w0) ∧
  Informer (tbl := example_table) (eval (accessor buildInformer) w2)
           (SourceFails (ConstructionFailed "down")) (exec (accessor buildInformer) w2)
    = (Resolved informer, exec (accessor buildInformer) w2).
Proof.
  cbv zeta.
  match goal with
  | |- ?A ∧ _ => assert A as Hres by (apply call_result; vm_compute; reflexivity)
  end.
  split; [exact Hres|].
  pose proof (singleton_per_kind (tbl := example_table)
                (InternalKubeInformerBundle 1) (KubeInformerBundle 2)
                (KubeClient 3) (OriginClient 4) example_overrides 30000000000
                [] buildInformer) as H.
  cbv zeta in H.
  exact (proj2 H SourceBuilds _ _ Hres example_ops
               (SourceFails (ConstructionFailed "down"))).
Defined.

(** C2. An informer's run loop is launched once, however often its pool is
    started.  In every world an execution reaches from a new factory, an
    informer stored in a pool has been launched exactly once if its started
    flag is set and never if it is not; after any further calls that include
    at least one start of its pool it has been launched exactly once; and
    once its flag is set no further call launches it again. *)
Theorem run_loop_launched_once {O} `{!ListerWatcherOverrides O} {tbl : FacadeTable}
    a b c d (o : O) r (ops : list Op) (P : Pool) (t : reflectType)
    (informer : SharedIndexInformer) :
  let w := exec (run ops) (boot (NewInformerFactory a b c d o r)) in
  pool P (factory w) !! t = Some informer →
  launches informer w = (if flag (started P (factory w)) t then 1 else 0) ∧
  (∀ ops' stopCh,
     CallStartOf P stopCh ∈ ops' → launches informer (exec (run ops') w) = 1) ∧
  (flag (started P (factory w)) t = true →
   ∀ ops', launches informer (exec (run ops') w) = 1).
Proof.
  intros w Hs.
  assert (consistent w) as Hc by apply consistent_reachable.
  assert (∀ w', consistent w' → pool P (factory w') !! t = Some informer →
            flag (started P (factory w')) t = true →
            ∀ ops', launches informer (exec (run ops') w') = 1) as Hset.
  { intros w' Hc' Hs' Hf' ops'.
    rewrite (launches_flag _ (consistent_run ops' w' Hc') P t informer)
      by by apply run_pool.
    by rewrite run_flag. }
  split; [by apply (launches_flag w Hc)|]. split.
  - intros ops' stopCh (l1 & l2 & ->)%list_elem_of_split.
    rewrite exec_run_app, exec_run_cons, step_CallStartOf.
    set (w1 := exec (run l1) w).
    assert (consistent w1) as Hc1 by by apply consistent_run.
    assert (pool P (factory w1) !! t = Some informer) as Hs1 by by apply run_pool.
    apply Hset.
    + by apply consistent_start.
    + by rewrite start_pool.
    + rewrite start_flag, decide_True; [done|]. by exists informer.
  - intros Hf. by apply Hset.
Qed.

Lemma run_loop_launched_once_witness :
  let w := exec (run (tbl := example_table) example_ops) (boot example_factory) in
  let informer := mkInformer 0 (CustomListerWatcher 7) "*api.Build" 30000000000 in
  pool General (factory w) !! "*api.Build" = Some informer ∧
  launches informer w = 1 ∧
  launches informer
    (exec (run (tbl := example_table) [CallStart (StopChan 1); CallStart (StopChan 2)]) w)
    = 1.
Proof.
  cbv zeta.
  match goal with
  | |- ?A ∧ _ => assert A as Hs by (vm_compute; reflexivity)
  end.
  split; [exact Hs|].
  pose proof (run_loop_launched_once (tbl := example_table)
                (InternalKubeInformerBundle 1) (KubeInformerBundle 2)
                (KubeClient 3) (OriginClient 4) example_overrides 30000000000
                example_ops General "*api.Build"
                (mkInformer 0 (CustomListerWatcher 7) "*api.Build" 30000000000)) as H.
  cbv zeta in H. specialize (H Hs).
  split.
  - vm_compute. reflexivity.
  - exact (proj1 (proj2 H) [CallStart (StopChan 1); CallStart (StopChan 2)]
                 (StopChan 1) (list_elem_of_here _ _)).
Defined.

(** C3. The pools are independent.  [Start] leaves the informer map and the
    started-flag map of the core pool as they are, [StartCore] those of the
    general pool; and neither reads the other pool: a start call commutes
    with any replacement of the other pool's two maps. *)
Theorem start_frames_other_pool {O} (stopCh : stopChan) (w : world O) :
  (coreInformers (factory (exec (Start stopCh) w)) = coreInformers (factory w) ∧
   startedCoreInformers (factory (exec (Start stopCh) w))
     = startedCoreInformers (factory w)) ∧
  (informers (factory (exec (StartCore stopCh) w)) = informers (factory w) ∧
   startedInformers (factory (exec (StartCore stopCh) w))
     = startedInformers (factory w)) ∧
  (∀ m s, exec (Start stopCh) (overwrite_pool Core m s w)
          = overwrite_pool Core m s (exec (Start stopCh) w)) ∧
  (∀ m s, exec (StartCore stopCh) (overwrite_pool General m s w)
          = overwrite_pool General m s (exec (StartCore stopCh) w)).
Proof.
  repeat split.
  - apply (start_pool General Core).
  - by apply (start_started_other General Core).
  - apply (start_pool Core General).
  - by apply (start_started_other Core General).
  - intros m s. apply (eq_trans (start_exec General stopCh _)).
    rewrite (start_exec General stopCh w : exec (Start stopCh) w = _). done.
  - intros m s. apply (eq_trans (start_exec Core stopCh _)).
    rewrite (start_exec Core stopCh w : exec (StartCore stopCh) w = _). done.
Qed.

(** C4. One start call launches every pending informer of its pool.  For
    [start General], which is [Start], and [start Core], which is
    [StartCore]: the call returns; the goroutines it launches are, up to
    order, one [informer.Run(stopCh)] for each entry of the pool whose flag
    was not set, put in front of the goroutines there were; and afterwards
    the flag of every entry of the pool is set. *)
Theorem start_launches_every_pending {O} (P : Pool) (stopCh : stopChan) (w : world O) :
  let w' := exec (start P stopCh) w in
  start P stopCh w = (tt, w') ∧
  launched_by (start P stopCh) w
    ≡ₚ pending stopCh (started P (factory w)) (map_to_list (pool P (factory w))) ∧
  goroutines w' = launched_by (start P stopCh) w ++ goroutines w ∧
  (∀ t informer,
     pool P (factory w) !! t = Some informer →
     flag (started P (factory w')) t = true ∧
     (flag (started P (factory w)) t = false →
      mkGoroutine informer stopCh ∈ launched_by (start P stopCh) w)).
Proof.
  intros w'. repeat split.
  - unfold w', exec. by destruct (start P stopCh w) as [[] ?].
  - rewrite start_launched_by. apply reverse_Permutation.
  - unfold w'. by rewrite start_launched_by, start_goroutines.
  - unfold w'. rewrite start_flag, decide_True; [done|]. by eexists.
  - intros Hf. rewrite start_launched_by, elem_of_reverse.
    apply elem_of_pending. by exists t.
Qed.

Lemma start_launches_every_pending_witness :
  let w := exec (run (tbl := example_table)
                   [CallGetOrCreate General buildInformer SourceBuilds;
                    CallGetOrCreate General imageStreamInformer SourceBuilds;
                    CallStart (StopChan 0);
                    CallGetOrCreate General buildConfigInformer SourceBuilds])
                (boot example_factory) in
  let informer :=
    mkInformer 2 (ClientListWatch (ThroughOriginClient (OriginClient 4))
                                  (mkGroupResource "" "buildconfigs"))
               "*api.BuildConfig" 30000000000 in
  (pool General (factory w) !! "*api.BuildConfig" = Some informer ∧
   flag (started General (factory w)) "*api.BuildConfig" = false) ∧
  flag (started General (factory (exec (start General (StopChan 1)) w)))
       "*api.BuildConfig" = true ∧
  mkGoroutine informer (StopChan 1) ∈ launched_by (start General (StopChan 1)) w.
Proof.
  cbv zeta.
  match goal with
  | |- (?A ∧ ?B) ∧ _ =>
      assert A as Hs by (vm_compute; reflexivity);
      assert B as Hf by (vm_compute; reflexivity)
  end.
  split; [exact (conj Hs Hf)|].
  pose proof (start_launches_every_pending General (StopChan 1)
    (exec (run (tbl := example_table)
             [CallGetOrCreate General buildInformer SourceBuilds;
              CallGetOrCreate General imageStreamInformer SourceBuilds;
              CallStart (StopChan 0);
              CallGetOrCreate General buildConfigInformer SourceBuilds])
          (boot example_factory))) as H.
  cbv zeta in H.
  pose proof (proj2 (proj2 (proj2 H)) "*api.BuildConfig" _ Hs) as H'.
  exact (conj (proj1 H') (proj2 H' Hf)).
Defined.

(** Through [GetListerWatcher] an entry that holds nil is the same as no
    entry: the interface answers nil for both. *)
Lemma nil_entry_is_no_entry (o : DefaultListerWatcherOverrides) resource :
  o !! resource = None →
  GetListerWatcher (<[resource := nilListerWatcher]> o) resource
  = GetListerWatcher o resource.
Proof.
  intros Hn. unfold GetListerWatcher, DefaultListerWatcherOverrides_GetListerWatcher.
  by rewrite lookup_insert_eq, Hn.
Qed.

(** C5. The override table decides the data source.  A handle is a
    ListerWatcher that is not nil: the interface answers nil for "no
    particular ListerWatcher was specified".  When [getOrCreate] builds the
    informer of a kind — the key has no informer and the source builds — the
    informer is built from the handle the override table holds for the kind's
    resource, and over the kind's default client if the table holds none for
    it (no entry, or nil). *)
Theorem override_decides_source {tbl : FacadeTable}
    (w : world DefaultListerWatcherOverrides) (P : Pool) (K : facadeType) :
  pool P (factory w) !! informerTypeOf K = None →
  ∃ informer w',
    getOrCreate P K SourceBuilds w = (Resolved informer, w') ∧
    (∀ h, customListerWatchers (factory w) !! resourceOf K = Some h →
          h ≠ nilListerWatcher → informer_lw informer = h) ∧
    (customListerWatchers (factory w) !! resourceOf K = None ∨
     customListerWatchers (factory w) !! resourceOf K = Some nilListerWatcher →
     informer_lw informer =
       ClientListWatch
         (if throughKubeClient K then ThroughKubeClient (kubeClient (factory w))
          else ThroughOriginClient (originClient (factory w)))
         (resourceOf K)).
Proof.
  intros Hp. eexists _, _. split; [by apply getOrCreate_build|]. cbn.
  unfold listerWatcherFor, GetListerWatcher, DefaultListerWatcherOverrides_GetListerWatcher.
  split.
  - intros h -> Hh. cbn. by destruct h.
  - by intros [-> | ->].
Qed.

Lemma override_decides_source_witness :
  pool General (factory (boot example_factory))
    !! informerTypeOf (FacadeTable := example_table) buildInformer = None ∧
  ∃ informer w',
    getOrCreate (tbl := example_table) General buildInformer SourceBuilds
                (boot example_factory) = (Resolved informer, w') ∧
    informer_lw informer = CustomListerWatcher 7.
Proof.
  match goal with
  | |- ?A ∧ _ => assert A as Hp by (vm_compute; reflexivity)
  end.
  split; [exact Hp|].
  destruct (override_decides_source (tbl := example_table)
              (boot example_factory) General buildInformer Hp)
    as (informer & w' & Hres & Hh & _).
  exists informer, w'. split; [exact Hres|].
  apply Hh; [vm_compute; reflexivity | discriminate].
Defined.

(** C6. [GetListerWatcher] of the map type is a lookup: the handle stored at
    the key, nil where the map has no entry.  It returns a handle and nothing
    else, and no call on the registry assigns the field that holds the table:
    after any execution it is the table the factory was made with. *)
Theorem GetListerWatcher_lookup {tbl : FacadeTable}
    (o : DefaultListerWatcherOverrides) (resource : GroupResource) :
  GetListerWatcher o resource
    = match o !! resource with
      | Some h => h
      | None => nilListerWatcher
      end ∧
  ∀ a b c d r ops,
    customListerWatchers (factory (exec (run ops) (boot (NewInformerFactory a b c d o r))))
    = o.
Proof.
  split; [done|]. intros a b c d r ops.
  by destruct (run_collaborators ops (boot (NewInformerFactory a b c d o r)))
    as (_ & _ & _ & _ & -> & _).
Qed.

(** C7. The passthrough accessors give back what the factory was made with.
    After any execution from [NewInformerFactory], [KubernetesInformers]
    returns the [kubeInformers] argument and [InternalKubernetesInformers]
    the [internalKubeInformers] argument, and neither changes the world. *)
Theorem passthrough_round_trip {O} `{!ListerWatcherOverrides O} {tbl : FacadeTable}
    (internalKubeInformers : kinternalinformers_SharedInformerFactory)
    (kubeInformers : kinformers_SharedInformerFactory)
    kubeClient originClient (customListerWatchers : O) defaultResync (ops : list Op) :
  let w := exec (run ops)
             (boot (NewInformerFactory internalKubeInformers kubeInformers kubeClient
                      originClient customListerWatchers defaultResync)) in
  KubernetesInformers w = (kubeInformers, w) ∧
  InternalKubernetesInformers w = (internalKubeInformers, w).
Proof.
  intros w.
  destruct (run_collaborators ops
              (boot (NewInformerFactory internalKubeInformers kubeInformers kubeClient
                       originClient customListerWatchers defaultResync)))
    as (Hi & Hk & _).
  unfold KubernetesInformers, InternalKubernetesInformers, mbind, Go_bind, deref.
  cbn. fold w in Hi, Hk. by rewrite Hi, Hk.
Qed.

(** C8. A facade is a new, stateless view.  An accessor call returns an
    object at an address no earlier facade has, holding the kind of the
    accessor and nothing else, and leaves the factory, the goroutines and the
    informers built as they were.  A facade obtained by any later accessor
    call is at another address.  Two facades of one kind are interchangeable:
    in every world they resolve to the same result and leave the same world. *)
Theorem facade_is_stateless_view {O} `{!ListerWatcherOverrides O} {tbl : FacadeTable}
    (K : facadeType) (w : world O) :
  accessor K w
    = (mkFacade (facades w) K,
       mkWorld (factory w) (goroutines w) (constructed w) (S (facades w))) ∧
  (∀ ops K',
     facade_addr (eval (accessor K') (exec (run ops) (exec (accessor K) w)))
     ≠ facade_addr (eval (accessor K) w)) ∧
  (∀ fa fb source w',
     facade_type fa = facade_type fb →
     Informer fa source w' = Informer fb source w').
Proof.
  split; [apply accessor_call|]. split.
  - intros ops K'. rewrite !accessor_eval, accessor_exec. cbn.
    pose proof (run_facades ops
      (mkWorld (factory w) (goroutines w) (constructed w) (S (facades w)))) as Hle.
    cbn in Hle. lia.
  - intros fa fb source w' Heq. unfold Informer. by rewrite Heq.
Qed.

Lemma facade_is_stateless_view_witness :
  let w := exec (run (tbl := example_table) example_ops) (boot example_factory) in
  let fa := eval (accessor buildInformer) w in
  let fb := eval (accessor buildInformer)
                 (exec (run (tbl := example_table) []) (exec (accessor buildInformer) w)) in
  facade_type fa = facade_type fb ∧
  facade_addr fb ≠ facade_addr fa ∧
  Informer (tbl := example_table) fa SourceBuilds w
  = Informer (tbl := example_table) fb SourceBuilds w.
Proof.
  cbv zeta.
  match goal with
  | |- ?A ∧ _ => assert A as Heq by (vm_compute; reflexivity)
  end.
  split; [exact Heq|].
  pose proof (facade_is_stateless_view (tbl := example_table) buildInformer
    (exec (run (tbl := example_table) example_ops) (boot example_factory))) as H.
  exact (conj (proj1 (proj2 H) [] buildInformer)
              (proj2 (proj2 H) _ _ SourceBuilds _ Heq)).
Defined.

(** C9. A construction failure is returned to the caller and leaves no
    trace.  If [getOrCreate] fails with an error, the error is the one the
    PipelineSource answered and the world is as it was before the call, so
    the entries of every kind are as they were.  The source is asked anew on
    the next call: if it fails again so does the call, and if it builds, the
    call returns a new informer and stores it.  After any further calls on
    the registry, a call for the kind with a source that builds succeeds. *)
Theorem construction_failure_not_cached {O} `{!ListerWatcherOverrides O}
    {tbl : FacadeTable} (P : Pool) (K : facadeType) (source : PipelineSource)
    (e : ConstructionError) (w w' : world O) :
  getOrCreate P K source w = (Failed e, w') →
  source = SourceFails e ∧ w' = w ∧
  (∀ e2, getOrCreate P K (SourceFails e2) w' = (Failed e2, w')) ∧
  (∃ informer w'',
     getOrCreate P K SourceBuilds w' = (Resolved informer, w'') ∧
     constructed w'' = (P, informerTypeOf K, informer) :: constructed w' ∧
     pool P (factory w'') !! informerTypeOf K = Some informer) ∧
  (∀ ops, ∃ informer w'',
     getOrCreate P K SourceBuilds (exec (run ops) w') = (Resolved informer, w'') ∧
     pool P (factory w'') !! informerTypeOf K = Some informer).
Proof.
  intros Hfail.
  destruct (pool P (factory w) !! informerTypeOf K) as [i|] eqn:Hp.
  { by rewrite (getOrCreate_hit _ _ _ _ _ Hp) in Hfail. }
  destruct source as [|e0].
  { by rewrite getOrCreate_build in Hfail. }
  rewrite getOrCreate_fail in Hfail by done. injection Hfail as -> ->.
  split; [done|]. split; [done|]. split; [|split].
  - intros e2. by apply getOrCreate_fail.
  - eexists _, _. split; [by apply getOrCreate_build|]. cbn.
    split; [done|]. by rewrite pool_set_pool, lookup_insert_eq.
  - intros ops.
    destruct (getOrCreate P K SourceBuilds (exec (run ops) w')) as [res w''] eqn:Hres.
    destruct res as [informer|e2].
    + exists informer, w''. split; [done|]. by eapply getOrCreate_resolved_stored.
    + exfalso.
      destruct (pool P (factory (exec (run ops) w')) !! informerTypeOf K)
        as [i|] eqn:Hp'.
      * by rewrite (getOrCreate_hit _ _ _ _ _ Hp') in Hres.
      * by rewrite getOrCreate_build in Hres.
Qed.

Lemma construction_failure_not_cached_witness :
  let w := boot example_factory in
  let e := ConstructionFailed "refused" in
  getOrCreate (tbl := example_table) General imageStreamInformer (SourceFails e) w
    = (Failed e,
       exec (getOrCreate (tbl := example_table) General imageStreamInformer
                         (SourceFails e)) w) ∧
  ∃ informer w'',
    getOrCreate (tbl := example_table) General imageStreamInformer SourceBuilds w
      = (Resolved informer, w'') ∧
    pool General (factory w'')
      !! informerTypeOf (FacadeTable := example_table) imageStreamInformer
      = Some informer.
Proof.
  cbv zeta.
  match goal with
  | |- ?A ∧ _ => assert A as Hfail by (apply call_result; vm_compute; reflexivity)
  end.
  split; [exact Hfail|].
  pose proof (construction_failure_not_cached (tbl := example_table)
                General imageStreamInformer _ _ _ _ Hfail) as H.
  destruct H as (_ & Hsame & _ & (informer & w'' & Hres & _ & Hs) & _).
  exists informer, w''. rewrite <- Hsame. split; [exact Hres | exact Hs].
Defined.

(** C10. Flags and entries only grow.  A new factory has four empty maps.
    Over any execution, from any world, a started flag that is set stays
    set, and an informer stored at a key of a pool stays stored there. *)
Theorem flags_and_entries_only_grow {O} `{!ListerWatcherOverrides O}
    {tbl : FacadeTable} a b c d (o : O) r :
  (informers (NewInformerFactory a b c d o r) = ∅ ∧
   coreInformers (NewInformerFactory a b c d o r) = ∅ ∧
   startedInformers (NewInformerFactory a b c d o r) = ∅ ∧
   startedCoreInformers (NewInformerFactory a b c d o r) = ∅) ∧
  ∀ (w : world O) (ops : list Op) (P : Pool) (t : reflectType),
    (flag (started P (factory w)) t = true →
     flag (started P (factory (exec (run ops) w))) t = true) ∧
    (∀ informer,
       pool P (factory w) !! t = Some informer →
       pool P (factory (exec (run ops) w)) !! t = Some informer).
Proof.
  split; [done|]. intros w ops P t. split.
  - apply run_flag.
  - intros informer. apply run_pool.
Qed.

Lemma flags_and_entries_only_grow_witness :
  let w := exec (run (tbl := example_table) example_ops) (boot example_factory) in
  let informer := mkInformer 0 (CustomListerWatcher 7) "*api.Build" 30000000000 in
  let ops := [CallStart (StopChan 5);
              CallGetOrCreate General buildInformer SourceBuilds;
              CallStartCore (StopChan 5)] in
  (flag (started General (factory w)) "*api.Build" = true ∧
   pool General (factory w) !! "*api.Build" = Some informer) ∧
  flag (started General (factory (exec (run (tbl := example_table) ops) w)))
       "*api.Build" = true ∧
  pool General (factory (exec (run (tbl := example_table) ops) w)) !! "*api.Build"
  = Some informer.
Proof.
  cbv zeta.
  match goal with
  | |- (?A ∧ ?B) ∧ _ =>
      assert A as Hf by (vm_compute; reflexivity);
      assert B as Hs by (vm_compute; reflexivity)
  end.
  split; [exact (conj Hf Hs)|].
  pose proof (proj2 (flags_and_entries_only_grow (tbl := example_table)
                       (InternalKubeInformerBundle 1) (KubeInformerBundle 2)
                       (KubeClient 3) (OriginClient 4) example_overrides 30000000000)
                    (exec (run (tbl := example_table) example_ops) (boot example_factory))
                    [CallStart (StopChan 5);
                     CallGetOrCreate General buildInformer SourceBuilds;
                     CallStartCore (StopChan 5)]
                    General "*api.Build") as H.
  exact (conj (proj1 H Hf) (proj2 H _ Hs)).
Defined.

(** * Further properties of the start calls *)

Section start_further.
Context {O : Type}.
Implicit Types (w : world O) (f : sharedInformerFactory O).

Lemma start_entries_all_set stopCh
    (entries : list (string * SharedIndexInformer)) (flags : gmap string bool)
    (gs : list Goroutine) :
  (∀ e, e ∈ entries → flag flags e.1 = true) →
  start_entries stopCh entries flags gs = (flags, gs).
Proof.
  induction entries as [|[k i] entries IH]; intros Hset; [done|].
  rewrite start_entries_cons. unfold start_entry. cbn [fst snd].
  assert (flag flags k = true) as -> by (apply (Hset (k, i)); left).
  cbn [fst snd].
  apply IH. intros e He. apply Hset. by right.
Qed.

Lemma set_started_id P f : set_started P (started P f) f = f.
Proof. by destruct P, f. Qed.

Lemma world_eta w :
  mkWorld (factory w) (goroutines w) (constructed w) (facades w) = w.
Proof. by destruct w. Qed.

Lemma set_started_comm P P' m m' f :
  P ≠ P' →
  set_started P m (set_started P' m' f) = set_started P' m' (set_started P m f).
Proof. by destruct P, P'. Qed.

Lemma start_factory P stopCh w :
  factory (exec (start P stopCh) w) =
  set_started P (started P (factory (exec (start P stopCh) w))) (factory w).
Proof. rewrite start_exec. cbn. by rewrite started_set_started. Qed.

Lemma start_twice P stopCh1 stopCh2 w :
  exec (start P stopCh2) (exec (start P stopCh1) w) = exec (start P stopCh1) w.
Proof.
  rewrite (start_exec P stopCh2 (exec (start P stopCh1) w)). cbn zeta.
  rewrite start_entries_all_set.
  - cbn [fst snd]. rewrite set_started_id. apply world_eta.
  - intros [k i] Hin%elem_of_map_to_list. cbn [fst].
    rewrite start_pool in Hin. rewrite start_flag, decide_True; [done|].
    by exists i.
Qed.

Lemma Start_unfold stopCh w :
  exec (Start stopCh) w =
  exec (forEach (map_to_list (informers (factory w))) (Start_body stopCh)) w.
Proof. done. Qed.

Lemma StartCore_unfold stopCh w :
  exec (StartCore stopCh) w =
  exec (forEach (map_to_list (coreInformers (factory w))) (StartCore_body stopCh)) w.
Proof. done. Qed.

Lemma length_filter_two {A} (Q : A → Prop) `{∀ x, Decision (Q x)} (l : list A) x y :
  x ∈ l → y ∈ l → x ≠ y → Q x → Q y → 2 ≤ length (filter Q l).
Proof.
  intros Hx Hy Hne HQx HQy.
  assert ([x; y] ⊆+ filter Q l) as Hsub.
  { apply NoDup_submseteq.
    - apply NoDup_cons. split; [by intros ->%list_elem_of_singleton|].
      apply NoDup_singleton.
    - intros z [->|[->|Hz%elem_of_nil]%elem_of_cons]%elem_of_cons;
        [by apply list_elem_of_filter..|done]. }
  by apply submseteq_length in Hsub.
Qed.
End start_further.

(** X1. A second start of a pool is a no-op.  Whatever the world and
    whatever the two stop channels, [Start] right after [Start] changes
    nothing: no goroutine is launched and no flag is written; the same for
    [StartCore]. *)
Theorem start_twice_is_once {O} (stopCh1 stopCh2 : stopChan) (w : world O) :
  exec (Start stopCh2) (exec (Start stopCh1) w) = exec (Start stopCh1) w ∧
  exec (StartCore stopCh2) (exec (StartCore stopCh1) w) = exec (StartCore stopCh1) w.
Proof.
  split.
  - apply (start_twice General).
  - apply (start_twice Core).
Qed.

(** X2. [Start] and [StartCore] commute.  In either order the factory ends
    the same, and the goroutines launched are the same up to the order of
    launching. *)
Theorem Start_StartCore_commute {O} (stopCh1 stopCh2 : stopChan) (w : world O) :
  let w12 := exec (StartCore stopCh2) (exec (Start stopCh1) w) in
  let w21 := exec (Start stopCh1) (exec (StartCore stopCh2) w) in
  factory w12 = factory w21 ∧
  goroutines w12 ≡ₚ goroutines w21 ∧
  constructed w12 = constructed w21 ∧
  facades w12 = facades w21.
Proof.
  intros w12 w21. unfold w12, w21.
  change (Start stopCh1) with (start (O := O) General stopCh1).
  change (StartCore stopCh2) with (start (O := O) Core stopCh2).
  split; [|split; [|split]].
  - rewrite (start_factory Core stopCh2 (exec (start General stopCh1) w)).
    rewrite (start_factory General stopCh1 (exec (start Core stopCh2) w)).
    rewrite (start_factory General stopCh1 w), (start_factory Core stopCh2 w).
    rewrite set_started_comm by done. f_equal; [|f_equal].
    + apply map_eq. intros k. rewrite !start_started, !start_pool.
      by rewrite start_started_other.
    + apply map_eq. intros k. rewrite !start_started, !start_pool.
      by rewrite start_started_other.
  - rewrite !start_goroutines, !start_pool.
    rewrite (start_started_other General Core), (start_started_other Core General)
      by done.
    apply Permutation_app_swap_app.
  - by rewrite !start_constructed.
  - by rewrite !start_facades.
Qed.

(** X3. The order of the map range does not matter.  Running the loop of
    [Start] over the entries of [f.informers] in any order leaves the same
    factory as [Start] and launches the same goroutines up to order; the same
    for [StartCore] over [f.coreInformers]. *)
Theorem range_order_irrelevant {O} (stopCh : stopChan) (w : world O) :
  (∀ entries,
     entries ≡ₚ map_to_list (informers (factory w)) →
     factory (exec (forEach entries (Start_body stopCh)) w)
       = factory (exec (Start stopCh) w) ∧
     goroutines (exec (forEach entries (Start_body stopCh)) w)
       ≡ₚ goroutines (exec (Start stopCh) w)) ∧
  (∀ entries,
     entries ≡ₚ map_to_list (coreInformers (factory w)) →
     factory (exec (forEach entries (StartCore_body stopCh)) w)
       = factory (exec (StartCore stopCh) w) ∧
     goroutines (exec (forEach entries (StartCore_body stopCh)) w)
       ≡ₚ goroutines (exec (StartCore stopCh) w)).
Proof.
  split; intros entries Hp.
  - rewrite Start_unfold, !forEach_Start_body. cbn.
    destruct (start_any_order stopCh (map_to_list (informers (factory w))) entries
                (startedInformers (factory w)) (goroutines w))
      as (Hflags & new & new' & Hg & Hg' & Hnew);
      [apply NoDup_fst_map_to_list | done |].
    rewrite Hflags, Hg, Hg'. split; [done|]. by rewrite Hnew.
  - rewrite StartCore_unfold, !forEach_StartCore_body. cbn.
    destruct (start_any_order stopCh (map_to_list (coreInformers (factory w))) entries
                (startedCoreInformers (factory w)) (goroutines w))
      as (Hflags & new & new' & Hg & Hg' & Hnew);
      [apply NoDup_fst_map_to_list | done |].
    rewrite Hflags, Hg, Hg'. split; [done|]. by rewrite Hnew.
Qed.

Lemma range_order_irrelevant_witness :
  let w := exec (run (tbl := example_table)
                   [CallGetOrCreate General buildInformer SourceBuilds;
                    CallGetOrCreate General imageStreamInformer SourceBuilds])
                (boot example_factory) in
  let entries := reverse (map_to_list (informers (factory w))) in
  entries ≡ₚ map_to_list (informers (factory w)) ∧
  factory (exec (forEach entries (Start_body (StopChan 0))) w)
    = factory (exec (Start (StopChan 0)) w) ∧
  goroutines (exec (forEach entries (Start_body (StopChan 0))) w)
    ≡ₚ goroutines (exec (Start (StopChan 0)) w).
Proof.
  cbv zeta.
  match goal with
  | |- ?A ∧ _ => assert A as Hp by apply reverse_Permutation
  end.
  split; [exact Hp|].
  exact (proj1 (range_order_irrelevant (StopChan 0) _) _ Hp).
Defined.

(** X4. A start call writes flags at the keys of its pool and nowhere else.
    After [start P], the keys of the flag map are those it had and those of
    the pool's informer map; the flag of every key of the pool is true; the
    flag of every other key is as it was; and no flag is made false. *)
Theorem start_writes_flags_at_pool_keys {O} (P : Pool) (stopCh : stopChan)
    (w : world O) :
  let flags' := started P (factory (exec (start P stopCh) w)) in
  dom flags' = dom (started P (factory w)) ∪ dom (pool P (factory w)) ∧
  (∀ k, is_Some (pool P (factory w) !! k) → flags' !! k = Some true) ∧
  (∀ k, pool P (factory w) !! k = None → flags' !! k = started P (factory w) !! k) ∧
  (∀ k, flags' !! k = Some false → started P (factory w) !! k = Some false).
Proof.
  intros flags'. unfold flags'. split; [|split; [|split]].
  - apply set_eq. intros k.
    rewrite elem_of_union, !elem_of_dom, start_started.
    case_decide as Hk; [|tauto]. split; [by right | by eexists].
  - intros k Hk. by rewrite start_started, decide_True.
  - intros k Hk. rewrite start_started, decide_False; [done|].
    rewrite Hk. by intros [? ?].
  - intros k. rewrite start_started. by case_decide.
Qed.

Lemma start_writes_flags_at_pool_keys_witness :
  let w := exec (run (tbl := example_table)
                   [CallGetOrCreate General buildInformer SourceBuilds])
                (boot example_factory) in
  let flags' := started General (factory (exec (start General (StopChan 0)) w)) in
  (is_Some (pool General (factory w) !! "*api.Build") ∧
   pool General (factory w) !! "*api.ImageStream" = None) ∧
  flags' !! "*api.Build" = Some true ∧
  flags' !! "*api.ImageStream" = started General (factory w) !! "*api.ImageStream".
Proof.
  cbv zeta.
  match goal with
  | |- (?A ∧ ?B) ∧ _ =>
      assert A as Hs by (vm_compute; eexists; reflexivity);
      assert B as Hn by (vm_compute; reflexivity)
  end.
  split; [exact (conj Hs Hn)|].
  pose proof (start_writes_flags_at_pool_keys General (StopChan 0)
    (exec (run (tbl := example_table)
             [CallGetOrCreate General buildInformer SourceBuilds])
          (boot example_factory))) as H.
  cbv zeta in H.
  exact (conj (proj1 (proj2 H) _ Hs) (proj1 (proj2 (proj2 H)) _ Hn)).
Defined.

(** X5. The stop channel is forwarded.  Every goroutine a start call
    launches carries the stop channel of that call and runs an informer that
    is stored in the pool of the call under a key whose flag was not set. *)
Theorem start_forwards_stop_channel {O} (P : Pool) (stopCh : stopChan)
    (w : world O) (g : Goroutine) :
  g ∈ launched_by (start P stopCh) w →
  go_stopCh g = stopCh ∧
  ∃ k, pool P (factory w) !! k = Some (go_informer g) ∧
       flag (started P (factory w)) k = false.
Proof.
  rewrite start_launched_by, elem_of_reverse.
  intros (k & Hk & Hf & Hch)%elem_of_pending. split; [done|]. by exists k.
Qed.

Lemma start_forwards_stop_channel_witness :
  let w := exec (run (tbl := example_table)
                   [CallGetOrCreate General buildInformer SourceBuilds])
                (boot example_factory) in
  let g := mkGoroutine (mkInformer 0 (CustomListerWatcher 7) "*api.Build" 30000000000)
                       (StopChan 9) in
  g ∈ launched_by (start General (StopChan 9)) w ∧
  go_stopCh g = StopChan 9 ∧
  ∃ k, pool General (factory w) !! k = Some (go_informer g) ∧
       flag (started General (factory w)) k = false.
Proof.
  cbv zeta.
  match goal with
  | |- ?A ∧ _ => assert A as Hin by (vm_compute; apply list_elem_of_here)
  end.
  split; [exact Hin|].
  exact (start_forwards_stop_channel General (StopChan 9) _ _ Hin).
Defined.

(** X6. The guard of a start call is per key, not per informer.  A start
    call launches an informer once for every key of the pool it is stored
    under with the flag not set; so an informer stored under two such keys
    is launched twice by one call. *)
Theorem start_guard_is_per_key {O} (P : Pool) (stopCh : stopChan) (w : world O)
    (informer : SharedIndexInformer) :
  launches informer (exec (start P stopCh) w)
  = length (filter (λ e, e.2 = informer ∧ flag (started P (factory w)) e.1 = false)
                   (map_to_list (pool P (factory w))))
    + launches informer w ∧
  (∀ k1 k2,
     k1 ≠ k2 →
     pool P (factory w) !! k1 = Some informer →
     pool P (factory w) !! k2 = Some informer →
     flag (started P (factory w)) k1 = false →
     flag (started P (factory w)) k2 = false →
     launches informer w + 2 ≤ launches informer (exec (start P stopCh) w)).
Proof.
  split.
  - unfold launches. rewrite start_goroutines, filter_app, length_app. f_equal.
    rewrite filter_reverse, length_reverse. unfold pending.
    rewrite length_filter_fmap. cbn. by rewrite list_filter_filter.
  - intros k1 k2 Hne H1 H2 Hf1 Hf2.
    unfold launches. rewrite start_goroutines, filter_app, length_app.
    rewrite filter_reverse, length_reverse. unfold pending.
    rewrite length_filter_fmap. cbn. rewrite list_filter_filter.
    pose proof (length_filter_two
      (λ e : string * SharedIndexInformer,
         e.2 = informer ∧ flag (started P (factory w)) e.1 = false)
      (map_to_list (pool P (factory w))) (k1, informer) (k2, informer)) as Htwo.
    cbn in Htwo. unfold launches.
    assert (2 ≤ length (filter
              (λ e : string * SharedIndexInformer,
                 e.2 = informer ∧ flag (started P (factory w)) e.1 = false)
              (map_to_list (pool P (factory w))))) as Hle.
    { apply Htwo; try done; try by apply elem_of_map_to_list. congruence. }
    lia.
Qed.

Lemma start_guard_is_per_key_witness :
  let informer := mkInformer 0 (CustomListerWatcher 7) "*api.Build" 30000000000 in
  let w := overwrite_pool General {[ "a" := informer; "b" := informer ]} ∅
             (boot example_factory) in
  ("a" ≠ "b" ∧
   pool General (factory w) !! "a" = Some informer ∧
   pool General (factory w) !! "b" = Some informer ∧
   flag (started General (factory w)) "a" = false ∧
   flag (started General (factory w)) "b" = false) ∧
  launches informer w + 2 ≤ launches informer (exec (start General (StopChan 0)) w).
Proof.
  cbv zeta.
  match goal with
  | |- (?A ∧ ?B ∧ ?C ∧ ?D ∧ ?E) ∧ _ =>
      assert A as Hne by discriminate;
      assert B as H1 by (vm_compute; reflexivity);
      assert C as H2 by (vm_compute; reflexivity);
      assert D as Hf1 by (vm_compute; reflexivity);
      assert E as Hf2 by (vm_compute; reflexivity)
  end.
  split; [exact (conj Hne (conj H1 (conj H2 (conj Hf1 Hf2))))|].
  exact (proj2 (start_guard_is_per_key General (StopChan 0) _ _)
               "a" "b" Hne H1 H2 Hf1 Hf2).
Defined.

(** * Further properties of the override table and the accessors *)

(** X7. Lookup after insertion.  [GetListerWatcher] on a table answers the
    handle just stored at the key it was stored at, and what the table
    answered before at every other key; keys are compared on both fields, so
    an entry for a resource of one group does not answer for the resource of
    the same name in another group; the empty table answers nil everywhere,
    and so does a table at a key that was deleted from it. *)
Theorem GetListerWatcher_insert (o : DefaultListerWatcherOverrides)
    (resource resource' : GroupResource) (h : ListerWatcher) :
  GetListerWatcher (<[resource := h]> o) resource'
    = (if decide (resource = resource') then h else GetListerWatcher o resource') ∧
  (∀ group group' name,
     group ≠ group' →
     GetListerWatcher ({[ mkGroupResource group name := h ]}
                         : DefaultListerWatcherOverrides)
                      (mkGroupResource group' name) = nilListerWatcher) ∧
  GetListerWatcher (∅ : DefaultListerWatcherOverrides) resource = nilListerWatcher ∧
  GetListerWatcher (delete resource o) resource = nilListerWatcher.
Proof.
  unfold GetListerWatcher, DefaultListerWatcherOverrides_GetListerWatcher.
  split; [|split; [|split]].
  - rewrite lookup_insert. by case_decide.
  - intros group group' name Hne. rewrite lookup_singleton_ne; [done|].
    intros [= ?]. done.
  - by rewrite lookup_empty.
  - by rewrite lookup_delete_eq.
Qed.

Lemma GetListerWatcher_insert_witness :
  "" ≠ "authorization.openshift.io" ∧
  GetListerWatcher ({[ mkGroupResource "" "policies" := CustomListerWatcher 7 ]}
                      : DefaultListerWatcherOverrides)
                   (mkGroupResource "authorization.openshift.io" "policies")
  = nilListerWatcher.
Proof.
  assert ("" ≠ "authorization.openshift.io") as Hne by discriminate.
  split; [exact Hne|].
  exact (proj1 (proj2 (GetListerWatcher_insert ∅ (mkGroupResource "" "x")
                         (mkGroupResource "" "x") (CustomListerWatcher 7)))
               "" "authorization.openshift.io" "policies" Hne).
Defined.

(** X8. An entry that holds nil cannot be told from no entry.  At every key,
    [GetListerWatcher] answers the same on a table where a key holds the nil
    handle as on the table with that key deleted. *)
Theorem GetListerWatcher_nil_entry (o : DefaultListerWatcherOverrides)
    (resource resource' : GroupResource) :
  GetListerWatcher (<[resource := nilListerWatcher]> o) resource'
  = GetListerWatcher (delete resource o) resource'.
Proof.
  unfold GetListerWatcher, DefaultListerWatcherOverrides_GetListerWatcher.
  rewrite lookup_insert, lookup_delete. by case_decide.
Qed.

(** X9. Accessor calls and start calls do not interfere.  Calling a typed
    accessor before or after a start call leaves the same world, and the
    facade the accessor returns is the same either way. *)
Theorem accessor_commutes_with_start {O} (K : facadeType) (P : Pool)
    (stopCh : stopChan) (w : world O) :
  exec (accessor K) (exec (start P stopCh) w)
    = exec (start P stopCh) (exec (accessor K) w) ∧
  eval (accessor K) (exec (start P stopCh) w) = eval (accessor K) w.
Proof.
  rewrite !accessor_eval, !accessor_exec, start_facades.
  split; [|done].
  rewrite (start_exec P stopCh
             (mkWorld (factory w) (goroutines w) (constructed w) (S (facades w)))).
  by rewrite (start_exec P stopCh w).
Qed.

(** X10. Starting an empty pool does nothing.  If the informer map of a pool
    is empty, as both are in a new factory, a start call of that pool leaves
    the world as it is: nothing is launched and no flag is written. *)
Theorem start_empty_pool {O} (P : Pool) (stopCh : stopChan) (w : world O) :
  pool P (factory w) = ∅ → exec (start P stopCh) w = w.
Proof.
  intros Hempty. rewrite start_exec, Hempty, map_to_list_empty. cbn.
  rewrite set_started_id. apply world_eta.
Qed.

Lemma start_empty_pool_witness :
  pool Core (factory (boot example_factory)) = ∅ ∧
  exec (StartCore (StopChan 0)) (boot example_factory) = boot example_factory.
Proof.
  assert (pool Core (factory (boot example_factory)) = ∅) as Hempty by reflexivity.
  split; [exact Hempty|].
  exact (start_empty_pool Core (StopChan 0) (boot example_factory) Hempty).
Defined.

(** X11. How many goroutines a start call launches.  Never more than the
    pool has entries; and exactly one for each entry if no flag of the pool
    is set, as in the first start of a pool. *)
Theorem start_launch_count {O} (P : Pool) (stopCh : stopChan) (w : world O) :
  length (launched_by (start P stopCh) w) ≤ size (pool P (factory w)) ∧
  ((∀ k, flag (started P (factory w)) k = false) →
   length (launched_by (start P stopCh) w) = size (pool P (factory w))).
Proof.
  rewrite start_launched_by, length_reverse. unfold pending.
  rewrite length_fmap, <- length_map_to_list. split.
  - apply length_filter.
  - intros Hunset. f_equal.
    induction (map_to_list (pool P (factory w))) as [|e l IH]; [done|].
    rewrite filter_cons_True by apply Hunset. by rewrite IH.
Qed.

Lemma start_launch_count_witness :
  let w := exec (run (tbl := example_table)
                   [CallGetOrCreate General buildInformer SourceBuilds;
                    CallGetOrCreate General imageStreamInformer SourceBuilds])
                (boot example_factory) in
  (∀ k, flag (started General (factory w)) k = false) ∧
  length (launched_by (start General (StopChan 0)) w) = size (pool General (factory w)).
Proof.
  cbv zeta.
  match goal with
  | |- ?A ∧ _ =>
      assert A as Hunset
        by (intros k; unfold flag;
            replace (started General (factory (exec (run (tbl := example_table)
                       [CallGetOrCreate General buildInformer SourceBuilds;
                        CallGetOrCreate General imageStreamInformer SourceBuilds])
                       (boot example_factory))))
              with (∅ : gmap string bool) by reflexivity;
            by rewrite lookup_empty)
  end.
  split; [exact Hunset|].
  exact (proj2 (start_launch_count General (StopChan 0) _) Hunset).
Defined.

(** X12. What a start call leaves alone.  [start P] assigns none of the six
    fields the factory was constructed with, neither informer map, nor the
    started flags of the other pool, nor the record of informers built, nor
    the facade counter: the factory afterwards is the factory before with the
    started flags of [P] replaced and nothing else; and the goroutines there
    were stay, in their order, behind the new ones. *)
Theorem start_frame {O} (P : Pool) (stopCh : stopChan) (w : world O) :
  let w' := exec (start P stopCh) w in
  (internalKubeInformers (factory w') = internalKubeInformers (factory w) ∧
   kubeInformers (factory w') = kubeInformers (factory w) ∧
   kubeClient (factory w') = kubeClient (factory w) ∧
   originClient (factory w') = originClient (factory w) ∧
   customListerWatchers (factory w') = customListerWatchers (factory w) ∧
   defaultResync (factory w') = defaultResync (factory w)) ∧
  informers (factory w') = informers (factory w) ∧
  coreInformers (factory w') = coreInformers (factory w) ∧
  constructed w' = constructed w ∧
  facades w' = facades w ∧
  goroutines w `suffix_of` goroutines w' ∧
  match P with
  | General => startedCoreInformers (factory w') = startedCoreInformers (factory w)
  | Core => startedInformers (factory w') = startedInformers (factory w)
  end ∧
  factory w' = set_started P (started P (factory w')) (factory w).
Proof.
  intros w'. unfold w'.
  split; [|split; [|split; [|split; [|split; [|split; [|split]]]]]].
  - rewrite start_exec. by destruct P.
  - apply (start_pool P General).
  - apply (start_pool P Core).
  - apply start_constructed.
  - apply start_facades.
  - rewrite start_goroutines. by eexists.
  - destruct P.
    + by apply (start_started_other General Core).
    + by apply (start_started_other Core General).
  - apply start_factory.
Qed.
